(** * piano_capture: a shallow embedding of the capture session and the
      batch runner, and the properties of its specification.

    The program drives a MIDI output port from a MIDI file while it records
    an audio input stream, one WAV file per MIDI file
    ([piano_capture/app.py]), and mixes the recorded channels afterwards
    ([piano_capture/postprocess.py]).

    Everything the program does is an effect on the outside world: clocks,
    devices, the disk, the operator's Ctrl+C.  The embedding threads one
    explicit [World] through a small state-and-exception monad, and keeps a
    trace of what reaches the devices.

    Conventions of the model:
    - Python floats that hold seconds are idealised as rationals ([Q]); the
      audio stream clock, [time.time()] and [time.sleep] run on one physical
      time axis, and what the environment adds to it is given by the world;
    - one Ctrl+C may be pending; it is delivered at a [checkpoint], and the
      checkpoints are the calls that open a device or a file, read a clock,
      sleep, send a message or write a block;
    - [recording_callback] runs whenever time passes while the input stream
      is open; writing to the file takes no time;
    - [print], the progress bar and [mkdir] are left out, and the disk holds
      files only. *)

From Stdlib Require Import QArith Lqa ZArith Ascii String.
From stdpp Require Import gmap strings list.

(** ** Data *)

(** A path is the list of its components, as [pathlib.Path.parts]. *)
Abbreviation Path := (list string).

(** One element of [for msg in mid]: a [mido.Message] or a
    [mido.MetaMessage], with [time] the delta in seconds. *)
Inductive Msg :=
| Message (type : string) (data : list Z) (time : Q)
| MetaMessage (type : string) (data : list Z) (time : Q).

Definition msg_time (m : Msg) : Q :=
  match m with Message _ _ t | MetaMessage _ _ t => t end.

(** [isinstance(msg, MetaMessage)] *)
Definition is_meta (m : Msg) : bool :=
  match m with MetaMessage _ _ _ => true | Message _ _ _ => false end.

(** A block of frames handed to [recording_callback] ([indata.copy()]). *)
Abbreviation Block := (list Z).

Inductive File :=
| FMidi (events : list Msg)
| FWav (samplerate channels : Z) (blocks : list Block)
| FOther.

(** The filter graph handed to ffmpeg as [af]: [pan=mono|c0=...] or
    [pan=stereo|c0=...|c1=...], each term [w*c<idx>] kept as the pair
    [(idx, w)] that [enumerate] yields. *)
Inductive Pan :=
| PanMono (c0 : list (nat * Q))
| PanStereo (c0 c1 : list (nat * Q)).

Inductive Device := MidiPort | SoundFileDev | InputStreamDev.

Inductive Exn :=
| KeyboardInterrupt
| SystemExit (code : Z)
| ValueError
| TypeError
| ZeroDivisionError
| RuntimeError
| OSError
| DeviceError (d : Device).

(** [except Exception] catches everything but the two [BaseException]s. *)
Definition is_Exception (e : Exn) : bool :=
  match e with KeyboardInterrupt | SystemExit _ => false | _ => true end.

(** What the outside world observes, in the order it happens.  [EvSession]
    and [EvRest] are bookkeeping of the batch runner: a call of
    [capture_performance], and a completed cooldown sleep with the instants
    it began and ended. *)
Inductive Event :=
| EvRealtime
| EvPortOpen (name : string)
| EvSend (t : Q) (m : Msg)
| EvReset
| EvPortClose
| EvStreamOpen (device samplerate channels : Z) (channel_map : option (list Z))
| EvStreamClose
| EvSleep (d : Q)
| EvSession (src dst : Path)
| EvRest (began ended : Q)
| EvFfmpeg (src dst : Path) (ss : Q) (af : Pan) (ar : Z).

(** What the environment does between two observations: how much time
    passes beyond what was asked for, and which blocks the audio device
    delivers meanwhile. *)
Record Tick := { lag : Q; heard : list Block }.

(** The parts of the environment the program cannot change. *)
Record Host := {
  h_port_fails : bool;       (* open_output raises *)
  h_soundfile_fails : bool;  (* sf.SoundFile(..., mode="w") raises *)
  h_stream_fails : bool;     (* sd.InputStream(...) raises *)
  h_close_fails : bool;      (* file.close() raises *)
  h_unlink_fails : bool;     (* Path.unlink() raises *)
  h_realtime_fails : bool;   (* thread_policy_set does not return KERN_SUCCESS *)
  h_rglob : Path -> string -> list Path;  (* root.rglob(pattern) *)
  h_st_size : Path -> Z      (* p.stat().st_size *)
}.

Record World := {
  w_now : Q;                 (* the one physical clock *)
  w_env : list Tick;         (* what the environment will do *)
  w_sigint : option nat;     (* Ctrl+C arrives after that many checkpoints *)
  w_host : Host;
  w_disk : gmap Path File;
  w_trace : list Event;
  w_buffer : list Block;     (* audio_buffer *)
  w_stream_open : bool;
  w_port_open : bool;
  w_file_open : bool
}.

Definition set_clock (now : Q) (env : list Tick) (buf : list Block) (w : World) : World :=
  {| w_now := now; w_env := env; w_sigint := w_sigint w; w_host := w_host w;
     w_disk := w_disk w; w_trace := w_trace w; w_buffer := buf;
     w_stream_open := w_stream_open w; w_port_open := w_port_open w;
     w_file_open := w_file_open w |}.

Definition set_sigint (s : option nat) (w : World) : World :=
  {| w_now := w_now w; w_env := w_env w; w_sigint := s; w_host := w_host w;
     w_disk := w_disk w; w_trace := w_trace w; w_buffer := w_buffer w;
     w_stream_open := w_stream_open w; w_port_open := w_port_open w;
     w_file_open := w_file_open w |}.

Definition set_disk (d : gmap Path File) (w : World) : World :=
  {| w_now := w_now w; w_env := w_env w; w_sigint := w_sigint w; w_host := w_host w;
     w_disk := d; w_trace := w_trace w; w_buffer := w_buffer w;
     w_stream_open := w_stream_open w; w_port_open := w_port_open w;
     w_file_open := w_file_open w |}.

Definition set_trace (t : list Event) (w : World) : World :=
  {| w_now := w_now w; w_env := w_env w; w_sigint := w_sigint w; w_host := w_host w;
     w_disk := w_disk w; w_trace := t; w_buffer := w_buffer w;
     w_stream_open := w_stream_open w; w_port_open := w_port_open w;
     w_file_open := w_file_open w |}.

Definition set_buffer (b : list Block) (w : World) : World :=
  set_clock (w_now w) (w_env w) b w.

Definition set_handles (stream port file : bool) (w : World) : World :=
  {| w_now := w_now w; w_env := w_env w; w_sigint := w_sigint w; w_host := w_host w;
     w_disk := w_disk w; w_trace := w_trace w; w_buffer := w_buffer w;
     w_stream_open := stream; w_port_open := port; w_file_open := file |}.

(** ** The monad: state passing with Python exceptions *)

Inductive Res (A : Type) :=
| Ok (a : A)
| Err (e : Exn).
Arguments Ok {A} a.
Arguments Err {A} e.

Definition M (A : Type) : Type := World -> Res A * World.

Definition ret {A} (a : A) : M A := fun w => (Ok a, w).

Definition raise {A} (e : Exn) : M A := fun w => (Err e, w).

Definition bind {A B} (m : M A) (f : A -> M B) : M B :=
  fun w => match m w with
           | (Ok a, w1) => f a w1
           | (Err e, w1) => (Err e, w1)
           end.

Notation "x <- m ; k" := (bind m (fun x => k))
  (at level 100, m at next level, right associativity).
Notation "m ;; k" := (bind m (fun _ => k))
  (at level 100, right associativity).

(** [with ... : body]: [exit] runs however [body] ends; an exception of
    [exit] replaces the outcome of [body]. *)
Definition with_exit {A} (exit : M unit) (body : M A) : M A :=
  fun w => match body w with
           | (r, w1) => match exit w1 with
                        | (Ok _, w2) => (r, w2)
                        | (Err e, w2) => (Err e, w2)
                        end
           end.

(** [try: body  except <catches>: handler] *)
Definition try_except {A} (body : M A) (catches : Exn -> bool) (handler : M A) : M A :=
  fun w => match body w with
           | (Err e, w1) => if catches e then handler w1 else (Err e, w1)
           | ok => ok
           end.

Definition get {A} (f : World -> A) : M A := fun w => (Ok (f w), w).

Definition modify (f : World -> World) : M unit := fun w => (Ok tt, f w).

Definition log (e : Event) : M unit :=
  modify (fun w => set_trace (w_trace w ++ [e]) w).

(** ** Primitive effects *)

(** A point at which a pending Ctrl+C is delivered. *)
Definition checkpoint : M unit :=
  fun w => match w_sigint w with
           | None => (Ok tt, w)
           | Some (S k) => (Ok tt, set_sigint (Some k) w)
           | Some O => (Err KeyboardInterrupt, set_sigint None w)
           end.

Definition next_lag (env : list Tick) : Q :=
  match env with [] => 0 | t :: _ => lag t end.

Definition next_heard (env : list Tick) : list Block :=
  match env with [] => [] | t :: _ => heard t end.

(** [d] seconds pass, and then some; while the input stream is open
    [recording_callback] appends what the device delivers. *)
Definition elapse (d : Q) : M unit :=
  modify (fun w =>
    set_clock (w_now w + d + next_lag (w_env w))%Q
              (tail (w_env w))
              (if w_stream_open w then w_buffer w ++ next_heard (w_env w)
               else w_buffer w)
              w).

(** [input_stream.time] and [time.time()] *)
Definition clock : M Q := checkpoint ;; elapse 0 ;; get w_now.

(** [time.sleep(d)] *)
Definition sleep (d : Q) : M unit :=
  if Qle_bool 0 d
  then checkpoint ;; log (EvSleep d) ;; elapse d
  else raise ValueError.

(** [MidiFile(path)] followed by [for msg in mid] *)
Definition MidiFile (p : Path) : M (list Msg) :=
  checkpoint ;; elapse 0 ;;
  d <- get w_disk ;
  match d !! p with
  | Some (FMidi evs) => ret evs
  | _ => raise OSError
  end.

(** [open_output(name)] *)
Definition open_output (name : string) : M unit :=
  checkpoint ;; elapse 0 ;;
  h <- get w_host ;
  if h_port_fails h then raise (DeviceError MidiPort)
  else modify (fun w => set_handles (w_stream_open w) true (w_file_open w) w) ;;
       log (EvPortOpen name).

(** [out_port.send(msg)] *)
Definition port_send (m : Msg) : M unit :=
  checkpoint ;;
  t <- get w_now ;
  log (EvSend t m).

(** [out_port.reset()] *)
Definition port_reset : M unit := log EvReset.

(** [out_port.close()]; [open_output] leaves [autoreset] off, so closing
    sends nothing, and closing twice does nothing. *)
Definition port_close : M unit :=
  o <- get w_port_open ;
  if o then modify (fun w => set_handles (w_stream_open w) false (w_file_open w) w) ;;
            log EvPortClose
  else ret tt.

(** [sf.SoundFile(path, mode="w", samplerate, channels, subtype="PCM_24")]:
    creates or truncates the file. *)
Definition SoundFile (p : Path) (samplerate channels : Z) : M unit :=
  checkpoint ;; elapse 0 ;;
  h <- get w_host ;
  if h_soundfile_fails h then raise (DeviceError SoundFileDev)
  else modify (fun w => set_disk (<[p := FWav samplerate channels []]> (w_disk w)) w) ;;
       modify (fun w => set_handles (w_stream_open w) (w_port_open w) true w).

(** [file.write(data)]; writing is taken to be instantaneous. *)
Definition sf_write (p : Path) (b : Block) : M unit :=
  checkpoint ;;
  modify (fun w =>
    match w_disk w !! p with
    | Some (FWav sr ch bs) => set_disk (<[p := FWav sr ch (bs ++ [b])]> (w_disk w)) w
    | _ => w
    end).

(** [file.close()]: the handle is closed even when the call raises, and
    closing a closed file does nothing. *)
Definition sf_close : M unit :=
  o <- get w_file_open ;
  if o then modify (fun w => set_handles (w_stream_open w) (w_port_open w) false w) ;;
            h <- get w_host ;
            if h_close_fails h then raise OSError else ret tt
  else ret tt.

(** [Path(p).unlink()] *)
Definition unlink (p : Path) : M unit :=
  h <- get w_host ;
  d <- get w_disk ;
  if h_unlink_fails h then raise OSError
  else match d !! p with
       | Some _ => modify (fun w => set_disk (delete p (w_disk w)) w)
       | None => raise OSError
       end.

(** [sd.InputStream(device, samplerate, channels, callback, extra_settings)]
    and its [__enter__], which starts the stream. *)
Definition InputStream (device samplerate channels : Z)
    (extra_settings : option (list Z)) : M unit :=
  checkpoint ;; elapse 0 ;;
  h <- get w_host ;
  if h_stream_fails h then raise (DeviceError InputStreamDev)
  else modify (fun w => set_handles true (w_port_open w) (w_file_open w) w) ;;
       log (EvStreamOpen device samplerate channels extra_settings).

(** [InputStream.__exit__] *)
Definition stream_close : M unit :=
  modify (fun w => set_handles false (w_port_open w) (w_file_open w) w) ;;
  log EvStreamClose.

(** [sys.exit(code)] *)
Definition sys_exit {A} (code : Z) : M A := raise (SystemExit code).

(** ** The clock-synchronised player and the capture session ([app.py]) *)

(** One turn of [for msg in mid]. *)
Definition play_msg (start_time input_time : Q) (msg : Msg) : M Q :=
  let input_time := (input_time + msg_time msg)%Q in
  now <- clock ;
  let playback_time := (now - start_time)%Q in
  let duration_to_next_event := (input_time - playback_time)%Q in
  (if negb (Qle_bool duration_to_next_event 0)
   then sleep duration_to_next_event else ret tt) ;;
  (if is_meta msg then ret tt else port_send msg) ;;
  ret input_time.

(** The loop; it hands back the final [input_time]. *)
Fixpoint play (start_time input_time : Q) (mid : list Msg) : M Q :=
  match mid with
  | [] => ret input_time
  | msg :: rest =>
      input_time <- play_msg start_time input_time msg ;
      play start_time input_time rest
  end.

(** [for data in audio_buffer: file.write(data)] *)
Fixpoint write_blocks (p : Path) (bs : list Block) : M unit :=
  match bs with
  | [] => ret tt
  | b :: rest => sf_write p b ;; write_blocks p rest
  end.

Record Capture := {
  input_midi_filepath : Path;
  output_audio_filepath : Path;
  output_port_name : string;
  input_audio_device : Z;
  delay_ms : Z;
  num_channels : Z;
  channel_map : option (list Z);
  sample_rate : Z
}.

(** Python's truth value of [channel_map]: [None] and [[]] are false. *)
Definition truthy {A} (l : option (list A)) : bool :=
  match l with Some (_ :: _) => true | _ => false end.

Definition len {A} (l : option (list A)) : Z :=
  match l with Some l => Z.of_nat (length l) | None => 0 end.

(** [channel_map and num_channels != len(channel_map)] *)
Definition channel_map_mismatch (n : Z) (cm : option (list Z)) : bool :=
  truthy cm && negb (n =? len cm)%Z.

(** The body of the [try] statement. *)
Definition recording (c : Capture) (mid : list Msg)
    (core_audio_settings : option (list Z)) : M unit :=
  InputStream (input_audio_device c) (sample_rate c) (num_channels c)
              core_audio_settings ;;
  with_exit stream_close
    (start_time <- clock ;
     play start_time 0 mid ;;
     sleep 3 ;;
     audio_buffer <- get w_buffer ;
     write_blocks (output_audio_filepath c) audio_buffer).

(** The [except KeyboardInterrupt] clause. *)
Definition teardown (c : Capture) : M unit :=
  sf_close ;;
  unlink (output_audio_filepath c) ;;
  port_reset ;;
  port_close ;;
  sys_exit 130.

Definition is_KeyboardInterrupt (e : Exn) : bool :=
  match e with KeyboardInterrupt => true | _ => false end.

Definition capture_performance (c : Capture) : M unit :=
  modify (set_buffer []) ;;
  if channel_map_mismatch (num_channels c) (channel_map c) then ret tt
  else
    mid <- try_except (evs <- MidiFile (input_midi_filepath c) ; ret (Some evs))
                      is_Exception (ret None) ;
    match mid with
    | None => ret tt
    | Some mid =>
        let core_audio_settings :=
          if truthy (channel_map c) then channel_map c else None in
        open_output (output_port_name c) ;;
        with_exit port_close
          (SoundFile (output_audio_filepath c) (sample_rate c) (num_channels c) ;;
           with_exit sf_close
             (try_except (recording c mid core_audio_settings)
                         is_KeyboardInterrupt
                         (teardown c)))
    end.

(** ** Paths ([pathlib]) *)

(** [name.rfind('.')] *)
Fixpoint rfind_dot (s : string) : option nat :=
  match s with
  | EmptyString => None
  | String c s' =>
      match rfind_dot s' with
      | Some i => Some (S i)
      | None => if Ascii.eqb c "."%char then Some 0 else None
      end
  end.

(** Where the suffix of a file name starts: [0 < i < len(name) - 1]. *)
Definition suffix_start (name : string) : option nat :=
  match rfind_dot name with
  | Some i => if (0 <? i) && (i <? String.length name - 1) then Some i else None
  | None => None
  end.

Definition stem (name : string) : string :=
  match suffix_start name with
  | Some i => substring 0 i name
  | None => name
  end.

Fixpoint has_sep (s : string) : bool :=
  match s with
  | EmptyString => false
  | String c s' => Ascii.eqb c "/"%char || has_sep s'
  end.

(** [p.relative_to(root)] *)
Fixpoint relative_to (p root : Path) : option Path :=
  match root, p with
  | [], _ => Some p
  | r :: root', x :: p' => if String.eqb r x then relative_to p' root' else None
  | _ :: _, [] => None
  end.

(** [p.with_name(name)] *)
Definition with_name (p : Path) (name : string) : option Path :=
  match reverse p with
  | [] => None
  | _ :: before =>
      if String.eqb name "" || String.eqb name "." || has_sep name then None
      else Some (reverse before ++ [name])
  end.

(** [p.with_suffix(suffix)], for a valid [suffix] such as [".wav"] *)
Definition with_suffix (p : Path) (suffix : string) : option Path :=
  match reverse p with
  | [] => None
  | name :: before =>
      let name' := match suffix_start name with
                   | Some i => substring 0 i name ++ suffix
                   | None => name ++ suffix
                   end%string in
      Some (reverse before ++ [name'])
  end.

(** The destination of one MIDI file, or [None] where pathlib raises
    [ValueError]. *)
Definition output_path (midi_root audio_root : Path) (output_suffix : string)
    (input_midi_filepath : Path) : option Path :=
  relative_midi_path ← relative_to input_midi_filepath midi_root ;
  name ← last relative_midi_path ;
  named ← with_name relative_midi_path (stem name ++ output_suffix)%string ;
  relative_audio_path ← with_suffix named ".wav" ;
  Some (audio_root ++ relative_audio_path).

(** [sorted(l, key=...)]: a stable insertion sort. *)
Fixpoint insert_by (key : Path -> Z) (p : Path) (l : list Path) : list Path :=
  match l with
  | [] => [p]
  | q :: l' => if (key p <=? key q)%Z then p :: q :: l' else q :: insert_by key p l'
  end.

Definition sorted_by (key : Path -> Z) (l : list Path) : list Path :=
  foldr (insert_by key) [] l.

(** ** The batch runner ([app.py], [darwin_realtime.py]) *)

Module Batch.
Record Args := {
  input_midi_root : Path;
  output_audio_root : Path;
  output_port_name : string;
  input_audio_device : Z;
  delay_ms : Z;
  num_channels : Z;
  channel_map : option (list Z);
  sample_rate : Z;
  realtime : bool;
  output_suffix : string;
  cooldown_parameters : option (Z * Z)
}.
End Batch.

(** [enable_realtime()]: one call into the platform, [RuntimeError] unless
    it answers [KERN_SUCCESS]. *)
Definition enable_realtime : M unit :=
  log EvRealtime ;;
  h <- get w_host ;
  if h_realtime_fails h then raise RuntimeError else ret tt.

(** [time.sleep(cooldown_duration_sec); cooldown_timer = time.time()] *)
Definition cooldown_rest (cooldown_duration_sec : Z) : M Q :=
  began <- get w_now ;
  sleep (inject_Z cooldown_duration_sec) ;;
  ended <- get w_now ;
  log (EvRest began ended) ;;
  clock.

Definition session_of (a : Batch.Args) (src dst : Path) : Capture :=
  {| input_midi_filepath := src;
     output_audio_filepath := dst;
     output_port_name := Batch.output_port_name a;
     input_audio_device := Batch.input_audio_device a;
     delay_ms := Batch.delay_ms a;
     num_channels := Batch.num_channels a;
     channel_map := Batch.channel_map a;
     sample_rate := Batch.sample_rate a |}.

(** [for input_midi_filepath in midi_filepaths: ...] *)
Fixpoint run_loop (a : Batch.Args)
    (cooldown_threshold_sec cooldown_duration_sec : Z)
    (cooldown_timer : Q) (midi_filepaths : list Path) : M unit :=
  match midi_filepaths with
  | [] => ret tt
  | input_midi_filepath :: rest =>
      now <- clock ;
      cooldown_timer <-
        (if negb (Qle_bool (now - cooldown_timer) (inject_Z cooldown_threshold_sec))
         then cooldown_rest cooldown_duration_sec
         else ret cooldown_timer) ;
      match output_path (Batch.input_midi_root a) (Batch.output_audio_root a)
                        (Batch.output_suffix a) input_midi_filepath with
      | None => raise ValueError
      | Some output_audio_filepath =>
          disk <- get w_disk ;
          if bool_decide (is_Some (disk !! output_audio_filepath))
          then run_loop a cooldown_threshold_sec cooldown_duration_sec
                        cooldown_timer rest
          else
            log (EvSession input_midi_filepath output_audio_filepath) ;;
            capture_performance
              (session_of a input_midi_filepath output_audio_filepath) ;;
            run_loop a cooldown_threshold_sec cooldown_duration_sec
                     cooldown_timer rest
      end
  end.

(** [cooldown_parameters[0] / cooldown_parameters[1] > 5.0], the true
    division taken over the rationals. *)
Definition ratio_exceeds (playtime_min sleep_min : Z) : bool :=
  negb (Qle_bool (inject_Z playtime_min / inject_Z sleep_min) 5).

Definition run (a : Batch.Args) : M unit :=
  if channel_map_mismatch (Batch.num_channels a) (Batch.channel_map a)
  then sys_exit 1
  else
    match Batch.cooldown_parameters a with
    | None => sys_exit 1
    | Some (playtime_min, sleep_min) =>
        if (sleep_min =? 0)%Z then raise ZeroDivisionError
        else if ratio_exceeds playtime_min sleep_min then sys_exit 1
        else
          let cooldown_threshold_sec := (playtime_min * 60)%Z in
          let cooldown_duration_sec := (sleep_min * 60)%Z in
          h <- get w_host ;
          let midi_filepaths :=
            sorted_by (h_st_size h)
                      (h_rglob h (Batch.input_midi_root a) "*.[Mm][Ii][Dd]") in
          (if Batch.realtime a then enable_realtime else ret tt) ;;
          cooldown_timer <- clock ;
          run_loop a cooldown_threshold_sec cooldown_duration_sec
                   cooldown_timer midi_filepaths
    end.

(** ** Post-processing ([postprocess.py]) *)

Module Postprocess.
Record Args := {
  audio_root : Path;
  output_root : Path;
  sample_rate : Z;
  offset_ms : Z;
  channel_weights : option (list Q);
  stereo : bool;
  stereo_c0_weights : option (list Q);
  stereo_c1_weights : option (list Q);
  overwrite : bool
}.
End Postprocess.

(** [l < n] with [l] a list and [n] an int: neither operand implements the
    comparison, Python raises [TypeError]. *)
Definition list_lt_int {A} (l : list A) (n : Z) : M (list bool) :=
  raise TypeError.

(** [(weights is None) or (len(weights) < 1)] *)
Definition stereo_weights_missing (weights : option (list Q)) : bool :=
  match weights with
  | None => true
  | Some l => (Z.of_nat (length l) <? 1)%Z
  end.

(** [(channel_weights is None) or (len(channel_weights < 1))] *)
Definition channel_weights_missing (channel_weights : option (list Q)) : M bool :=
  match channel_weights with
  | None => ret true
  | Some l =>
      below <- list_lt_int l 1 ;
      ret (negb (Z.of_nat (length below) =? 0)%Z)
  end.

(** [enumerate(weights)] *)
Definition enumerate (weights : option (list Q)) : list (nat * Q) :=
  match weights with
  | Some l => imap (fun idx w => (idx, w)) l
  | None => []
  end.

(** [ffmpeg.input(p, ss=...).output(out, af=..., ar=...).run(...)] *)
Definition ffmpeg_run (src dst : Path) (ss : Q) (af : Pan) (ar : Z) : M unit :=
  log (EvFfmpeg src dst ss af ar) ;;
  modify (fun w => set_disk (<[dst := FOther]> (w_disk w)) w).

(** [for p in audio_paths: ...] *)
Fixpoint transcode_all (a : Postprocess.Args) (af_expr : Pan) (offset_sec : Q)
    (audio_paths : list Path) : M unit :=
  match audio_paths with
  | [] => ret tt
  | p :: rest =>
      match relative_to p (Postprocess.audio_root a) with
      | None => raise ValueError
      | Some rel =>
          let output_path := Postprocess.output_root a ++ rel in
          disk <- get w_disk ;
          if negb (Postprocess.overwrite a) && bool_decide (is_Some (disk !! output_path))
          then transcode_all a af_expr offset_sec rest
          else
            ffmpeg_run p output_path offset_sec af_expr (Postprocess.sample_rate a) ;;
            transcode_all a af_expr offset_sec rest
      end
  end.

Definition process_wav_files (a : Postprocess.Args) : M unit :=
  h <- get w_host ;
  let audio_paths := h_rglob h (Postprocess.audio_root a) "*.wav" in
  let offset_sec := (inject_Z (Postprocess.offset_ms a) * (1 # 1000))%Q in
  af_expr <-
    (if Postprocess.stereo a then
       if stereo_weights_missing (Postprocess.stereo_c0_weights a)
       then raise ValueError
       else if stereo_weights_missing (Postprocess.stereo_c1_weights a)
       then raise ValueError
       else ret (PanStereo (enumerate (Postprocess.stereo_c0_weights a))
                           (enumerate (Postprocess.stereo_c1_weights a)))
     else
       missing <- channel_weights_missing (Postprocess.channel_weights a) ;
       if missing then raise ValueError
       else ret (PanMono (enumerate (Postprocess.channel_weights a)))) ;
  transcode_all a af_expr offset_sec audio_paths.

(** ** Reading traces *)

Definition sends (tr : list Event) : list (Q * Msg) :=
  omap (fun e => match e with EvSend t m => Some (t, m) | _ => None end) tr.

Definition resets (tr : list Event) : list unit :=
  omap (fun e => match e with EvReset => Some tt | _ => None end) tr.


Definition rests (tr : list Event) : list (Q * Q) :=
  omap (fun e => match e with EvRest b e => Some (b, e) | _ => None end) tr.

Definition sessions (tr : list Event) : list (Path * Path) :=
  omap (fun e => match e with EvSession s d => Some (s, d) | _ => None end) tr.

(** ** Sample worlds *)

Definition quiet_host : Host :=
  {| h_port_fails := false; h_soundfile_fails := false; h_stream_fails := false;
     h_close_fails := false; h_unlink_fails := false; h_realtime_fails := false;
     h_rglob := fun _ _ => []; h_st_size := fun _ => 0%Z |}.

Definition world0 (h : Host) (disk : gmap Path File) (env : list Tick)
    (sigint : option nat) : World :=
  {| w_now := 0; w_env := env; w_sigint := sigint; w_host := h; w_disk := disk;
     w_trace := []; w_buffer := []; w_stream_open := false;
     w_port_open := false; w_file_open := false |}.

Definition note_on : Msg := Message "note_on" [60; 64]%Z 0.
Definition set_tempo : Msg := MetaMessage "set_tempo" [500000]%Z (1 # 2).
Definition note_off : Msg := Message "note_off" [60; 0]%Z 1.

Definition demo_capture : Capture :=
  {| input_midi_filepath := ["in"; "a.mid"];
     output_audio_filepath := ["out"; "a.wav"];
     output_port_name := "Disklavier";
     input_audio_device := 1;
     delay_ms := 500;
     num_channels := 2;
     channel_map := None;
     sample_rate := 44100 |}.

Definition demo_disk : gmap Path File :=
  {[ ["in"; "a.mid"] := FMidi [note_on; set_tempo; note_off] ]}.

Definition demo_env : list Tick :=
  [ {| lag := 1 # 100; heard := [[1; 2]%Z] |};
    {| lag := 0; heard := [] |};
    {| lag := 1 # 50; heard := [[3; 4]%Z] |} ].

Definition demo_world : World := world0 quiet_host demo_disk demo_env None.

Definition demo_host (fails_port : bool) (found : list Path) : Host :=
  {| h_port_fails := fails_port; h_soundfile_fails := false;
     h_stream_fails := false; h_close_fails := false; h_unlink_fails := false;
     h_realtime_fails := false;
     h_rglob := fun _ _ => found; h_st_size := fun _ => 0%Z |}.

Definition demo_batch (n : Z) (cm : option (list Z)) (cooldown : option (Z * Z))
    : Batch.Args :=
  {| Batch.input_midi_root := ["in"];
     Batch.output_audio_root := ["out"];
     Batch.output_port_name := "Disklavier";
     Batch.input_audio_device := 1;
     Batch.delay_ms := 500;
     Batch.num_channels := n;
     Batch.channel_map := cm;
     Batch.sample_rate := 44100;
     Batch.realtime := false;
     Batch.output_suffix := "";
     Batch.cooldown_parameters := cooldown |}.

Definition two_midi_disk : gmap Path File :=
  <[ ["in"; "b.mid"] := FMidi [note_on] ]> demo_disk.

Definition slow_env : list Tick := replicate 40 {| lag := 50; heard := [] |}.

Definition three_midi_disk : gmap Path File :=
  <[ ["in"; "c.mid"] := FMidi [note_off] ]> two_midi_disk.

Definition slow_world : World :=
  world0 (demo_host false [["in"; "a.mid"]; ["in"; "b.mid"]; ["in"; "c.mid"]])
         three_midi_disk slow_env None.

(** ** The vocabulary of the properties *)

(** [hoare P m Q]: from a world in [P], [m] ends in [Q], whether it
    returns or raises. *)
Definition hoare {A} (P : World -> Prop) (m : M A)
    (Q : Res A -> World -> Prop) : Prop :=
  forall w, P w -> Q (m w).1 (m w).2.

(** A relation between the world before and the world after that every
    piece of a program respects, however the piece ends. *)
Definition preserves {A} (R : World -> World -> Prop) (m : M A) : Prop :=
  forall w, R w (m w).2.

Definition emits (allowed : Event -> bool) (w w' : World) : Prop :=
  exists new, w_trace w' = w_trace w ++ new /\ Forall (fun e => allowed e = true) new.

(** Events of the player and of the streams: no reset, no port close, no
    batch bookkeeping. *)
Definition playing_event (e : Event) : bool :=
  match e with
  | EvSend _ _ | EvSleep _ | EvStreamOpen _ _ _ _ | EvStreamClose => true
  | _ => false
  end.

(** Events of one capture session. *)
Definition session_event (e : Event) : bool :=
  match e with
  | EvSession _ _ | EvRest _ _ | EvRealtime | EvFfmpeg _ _ _ _ _ => false
  | _ => true
  end.

(** Events that dispatch nothing. *)
Definition silent_event (e : Event) : bool :=
  match e with EvSend _ _ => false | _ => true end.

(** The environment never turns the clock back. *)
Definition calm (env : list Tick) : Prop := Forall (fun t => (0 <= lag t)%Q) env.

(** The host is the same, time moves forward, and no file but [dst] is
    touched. *)
Definition steady (dst : Path) (w w' : World) : Prop :=
  w_host w' = w_host w /\
  (calm (w_env w) -> calm (w_env w') /\ (w_now w <= w_now w')%Q) /\
  (forall q : Path, q <> dst -> w_disk w' !! q = w_disk w !! q).

(** The file at [dst], once there, stays. *)
Definition keeps (dst : Path) (w w' : World) : Prop :=
  is_Some (w_disk w !! dst) -> is_Some (w_disk w' !! dst).

Definition with_delay_ms (c : Capture) (d : Z) : Capture :=
  {| input_midi_filepath := input_midi_filepath c;
     output_audio_filepath := output_audio_filepath c;
     output_port_name := output_port_name c;
     input_audio_device := input_audio_device c;
     delay_ms := d;
     num_channels := num_channels c;
     channel_map := channel_map c;
     sample_rate := sample_rate c |}.

Definition mono_with (a : Postprocess.Args) (weights : option (list Q))
    : Postprocess.Args :=
  {| Postprocess.audio_root := Postprocess.audio_root a;
     Postprocess.output_root := Postprocess.output_root a;
     Postprocess.sample_rate := Postprocess.sample_rate a;
     Postprocess.offset_ms := Postprocess.offset_ms a;
     Postprocess.channel_weights := weights;
     Postprocess.stereo := false;
     Postprocess.stereo_c0_weights := Postprocess.stereo_c0_weights a;
     Postprocess.stereo_c1_weights := Postprocess.stereo_c1_weights a;
     Postprocess.overwrite := Postprocess.overwrite a |}.



(** The payloads sent to the MIDI output, in order. *)
Definition dispatched (tr : list Event) : list Msg := (sends tr).*2.

(** The source's non-meta events, in source order. *)
Definition non_meta (mid : list Msg) : list Msg :=
  filter (fun m => is_meta m = false) mid.

(** No Ctrl+C is pending, the three devices open, and [sent] is what has
    been dispatched so far. *)
Definition ready (sent : list Msg) (w : World) : Prop :=
  w_sigint w = None /\
  h_port_fails (w_host w) = false /\
  h_soundfile_fails (w_host w) = false /\
  h_stream_fails (w_host w) = false /\
  dispatched (w_trace w) = sent.

(** A step that goes through when nothing disturbs it. *)
Definition proceeds {A} (sent : list Msg) (m : M A) : Prop :=
  hoare (ready sent) m
        (fun r w => match r with Ok _ => ready sent w | Err _ => False end).





(** The first of the three openings that fails, in the order the session
    performs them. *)
Definition first_fault (h : Host) : option Device :=
  if h_port_fails h then Some MidiPort
  else if h_soundfile_fails h then Some SoundFileDev
  else if h_stream_fails h then Some InputStreamDev
  else None.

(** Between the end of a rest and the beginning of the next, at least [th]
    seconds pass. *)
Definition gaps_ok (th : Q) (l : list (Q * Q)) : Prop :=
  forall i r1 r2, l !! i = Some r1 -> l !! S i = Some r2 -> (r1.2 + th <= r2.1)%Q.

(** The state of the batch between two sessions: the clock only moves
    forward, the timer was read in the past and after the last rest, and the
    rests so far are far enough apart. *)
Definition cooled (th timer : Q) (w : World) : Prop :=
  calm (w_env w) /\
  (timer <= w_now w)%Q /\
  gaps_ok th (rests (w_trace w)) /\
  (forall r, last (rests (w_trace w)) = Some r -> (r.2 <= timer)%Q).

(** A part of the world that a piece of code leaves as it is. *)
Definition unchanged {A} (f : World -> A) (w w' : World) : Prop := f w' = f w.

(** Events of the batch runner outside its sessions. *)
Definition between_event (e : Event) : bool :=
  match e with EvSession _ _ => false | _ => true end.

(** The file at [dst] is what it was, and every session so far was for
    the destination derived from its source, which is not [dst]. *)
Definition resumed (a : Batch.Args) (dst : Path) (f : File) (w : World) : Prop :=
  w_disk w !! dst = Some f /\
  Forall (fun sd => output_path (Batch.input_midi_root a)
                                (Batch.output_audio_root a)
                                (Batch.output_suffix a) sd.1 = Some sd.2 /\
                    sd.2 <> dst)
         (sessions (w_trace w)).

(** ** Further sample worlds and vocabulary *)



(** No handle is open: neither the input stream, nor the MIDI port, nor the
    sound file. *)
Definition all_closed (w : World) : Prop :=
  w_stream_open w = false /\ w_port_open w = false /\ w_file_open w = false.

(** How a piece of code relates to the operator's Ctrl+C: it ends in
    [SystemExit] only with status 130 and only when a pending Ctrl+C was
    delivered; it raises [KeyboardInterrupt] only then, too; and it never
    makes a Ctrl+C pending. *)
Definition signals {A} (m : M A) : Prop :=
  forall w,
    (forall n, (m w).1 = Err (SystemExit n) ->
               n = 130%Z /\ is_Some (w_sigint w) /\ w_sigint (m w).2 = None) /\
    ((m w).1 = Err KeyboardInterrupt ->
     is_Some (w_sigint w) /\ w_sigint (m w).2 = None) /\
    (w_sigint w = None -> w_sigint (m w).2 = None).

(** Code that leaves the pending Ctrl+C alone and raises neither
    [KeyboardInterrupt] nor, except with status 130, [SystemExit]. *)
Definition deaf {A} (m : M A) : Prop :=
  forall w,
    w_sigint (m w).2 = w_sigint w /\
    (m w).1 <> Err KeyboardInterrupt /\
    (forall n, (m w).1 = Err (SystemExit n) -> n = 130%Z).

(** The configurations that [run] refuses. *)
Definition refused (a : Batch.Args) : Prop :=
  channel_map_mismatch (Batch.num_channels a) (Batch.channel_map a) = true \/
  Batch.cooldown_parameters a = None \/
  exists playtime_min sleep_min,
    Batch.cooldown_parameters a = Some (playtime_min, sleep_min) /\
    sleep_min <> 0%Z /\
    (5 < inject_Z playtime_min / inject_Z sleep_min)%Q.

(** [l] is in ascending order of [key]: no element is above a later one. *)
Fixpoint ascending (key : Path -> Z) (l : list Path) : Prop :=
  match l with
  | [] => True
  | p :: l' => Forall (fun q => (key p <= key q)%Z) l' /\ ascending key l'
  end.

(** A session for the destination that the batch derives from its source. *)
Definition derived (a : Batch.Args) (sd : Path * Path) : Prop :=
  output_path (Batch.input_midi_root a) (Batch.output_audio_root a)
              (Batch.output_suffix a) sd.1 = Some sd.2.

(** From [w] to [w'] the batch started sessions for some of [paths], in the
    order of [paths], each for its derived destination. *)
Definition launched (a : Batch.Args) (paths : list Path) (w w' : World) : Prop :=
  exists started,
    sessions (w_trace w') = sessions (w_trace w) ++ started /\
    started.*1 `sublist_of` paths /\
    Forall (derived a) started.

(** Events of the batch once the thread policy is settled. *)
Definition running_event (e : Event) : bool :=
  match e with EvRealtime => false | _ => true end.

(** The clock only moves forward, and every cooldown rest so far lasted
    [dur] seconds or more. *)
Definition rested (dur : Q) (w : World) : Prop :=
  calm (w_env w) /\
  Forall (fun r : Q * Q => (r.1 + dur <= r.2)%Q) (rests (w_trace w)).

(** A batch that asks for the realtime thread policy, and a platform that
    refuses it. *)
Definition realtime_batch : Batch.Args :=
  {| Batch.input_midi_root := ["in"];
     Batch.output_audio_root := ["out"];
     Batch.output_port_name := "Disklavier";
     Batch.input_audio_device := 1;
     Batch.delay_ms := 500;
     Batch.num_channels := 2;
     Batch.channel_map := None;
     Batch.sample_rate := 44100;
     Batch.realtime := true;
     Batch.output_suffix := "";
     Batch.cooldown_parameters := Some (15, 3)%Z |}.

Definition refusing_host (found : list Path) : Host :=
  {| h_port_fails := false; h_soundfile_fails := false;
     h_stream_fails := false; h_close_fails := false; h_unlink_fails := false;
     h_realtime_fails := true;
     h_rglob := fun _ _ => found; h_st_size := fun _ => 0%Z |}.

(** A transcoding call of the post-processing run [a]: from a file under
    the audio root to its mirror under the output root, at the offset [ss],
    with the panning [af] and at the sample rate of the run. *)
Definition transcode_with (a : Postprocess.Args) (ss : Q) (af : Pan)
    (e : Event) : Prop :=
  match e with
  | EvFfmpeg src dst ss' af' ar =>
      (exists rel, src = Postprocess.audio_root a ++ rel /\
                   dst = Postprocess.output_root a ++ rel) /\
      ss' = ss /\ af' = af /\ ar = Postprocess.sample_rate a
  | _ => False
  end.

Definition stereo_transcode (a : Postprocess.Args) : Event -> Prop :=
  transcode_with a
    (inject_Z (Postprocess.offset_ms a) * (1 # 1000))%Q
    (PanStereo (enumerate (Postprocess.stereo_c0_weights a))
               (enumerate (Postprocess.stereo_c1_weights a))).

(** A stereo post-processing run over [raw] into [mix]. *)
Definition stereo_args (overwrite : bool) : Postprocess.Args :=
  {| Postprocess.audio_root := ["raw"];
     Postprocess.output_root := ["mix"];
     Postprocess.sample_rate := 44100;
     Postprocess.offset_ms := 507;
     Postprocess.channel_weights := None;
     Postprocess.stereo := true;
     Postprocess.stereo_c0_weights := Some [1; 0]%Q;
     Postprocess.stereo_c1_weights := Some [0; 1]%Q;
     Postprocess.overwrite := overwrite |}.

Definition raw_disk : gmap Path File :=
  {[ ["raw"; "a.wav"] := FWav 44100 2 [];
     ["raw"; "bach"; "b.wav"] := FWav 44100 2 [];
     ["mix"; "a.wav"] := FWav 44100 2 [[1; 2]%Z] ]}.

Definition raw_world : World :=
  world0 (demo_host false [["raw"; "a.wav"]; ["raw"; "bach"; "b.wav"]])
         raw_disk [] None.

(** Events of a batch that opens no device: the thread policy, sleeps and
    rests. *)
Definition idle_event (e : Event) : bool :=
  match e with EvRealtime | EvSleep _ | EvRest _ _ => true | _ => false end.

(** The batch has nothing to do for [p] on the disk [d]: the destination
    derived from it is there. *)
Definition done_on (a : Batch.Args) (d : gmap Path File) (p : Path) : Prop :=
  exists dst,
    output_path (Batch.input_midi_root a) (Batch.output_audio_root a)
                (Batch.output_suffix a) p = Some dst /\
    is_Some (d !! dst).

(** A host whose audio input cannot be opened. *)
Definition deaf_host (found : list Path) : Host :=
  {| h_port_fails := false; h_soundfile_fails := false;
     h_stream_fails := true; h_close_fails := false; h_unlink_fails := false;
     h_realtime_fails := false;
     h_rglob := fun _ _ => found; h_st_size := fun _ => 0%Z |}.
(** * Reasoning about monadic code *)

Lemma hoare_bind {A B} (P : World -> Prop) (P' : A -> World -> Prop)
    (Q : Res B -> World -> Prop) (m : M A) (f : A -> M B) :
  hoare P m (fun r w => match r with Ok a => P' a w | Err e => Q (Err e) w end) ->
  (forall a, hoare (P' a) (f a) Q) ->
  hoare P (bind m f) Q.
Proof.
  intros Hm Hf w HP. specialize (Hm w HP). unfold bind.
  destruct (m w) as [[a|e] w1]; simpl in *; [by apply Hf | done].
Qed.

(** The rules for a reflexive and transitive relation. *)
Section Preservation.
Context (R : World -> World -> Prop) `{!PreOrder R}.

Lemma preserves_ret {A} (a : A) : preserves R (ret a).
Proof. intros w. reflexivity. Qed.

Lemma preserves_raise {A} e : preserves R (@raise A e).
Proof. intros w. reflexivity. Qed.

Lemma preserves_get {A} (f : World -> A) : preserves R (get f).
Proof. intros w. reflexivity. Qed.

Lemma preserves_modify f : (forall w, R w (f w)) -> preserves R (modify f).
Proof. intros Hf w. apply Hf. Qed.

Lemma preserves_bind {A B} (m : M A) (f : A -> M B) :
  preserves R m -> (forall a, preserves R (f a)) -> preserves R (bind m f).
Proof.
  intros Hm Hf w. specialize (Hm w). unfold bind.
  destruct (m w) as [[a|e] w1]; simpl in *; [|done].
  etrans; [exact Hm | apply Hf].
Qed.

Lemma preserves_with_exit {A} (exit : M unit) (body : M A) :
  preserves R exit -> preserves R body -> preserves R (with_exit exit body).
Proof.
  intros He Hb w. specialize (Hb w). unfold with_exit.
  destruct (body w) as [r w1]. specialize (He w1).
  destruct (exit w1) as [[[]|e] w2]; simpl in *; by etrans.
Qed.

Lemma preserves_try_except {A} (body handler : M A) catches :
  preserves R body -> preserves R handler ->
  preserves R (try_except body catches handler).
Proof.
  intros Hb Hh w. specialize (Hb w). unfold try_except.
  destruct (body w) as [[a|e] w1]; simpl in *; [done|].
  destruct (catches e); [|done]. etrans; [exact Hb | apply Hh].
Qed.

Lemma preserves_checkpoint :
  (forall w s, R w (set_sigint s w)) -> preserves R checkpoint.
Proof.
  intros Hs w. unfold checkpoint.
  destruct (w_sigint w) as [[|k]|]; simpl; (apply Hs || reflexivity).
Qed.
End Preservation.

(** Splits a program into its pieces; what is left are the primitive
    effects. *)
Ltac preorder := try (solve [apply _]).

Ltac preserve_step :=
  lazymatch goal with
  | |- preserves _ (ret _) => apply preserves_ret; preorder
  | |- preserves _ (raise _) => apply preserves_raise; preorder
  | |- preserves _ (sys_exit _) => apply preserves_raise; preorder
  | |- preserves _ (get _) => apply preserves_get; preorder
  | |- preserves _ (bind _ _) => apply preserves_bind; preorder; [|intros ?]
  | |- preserves _ (with_exit _ _) => apply preserves_with_exit; preorder
  | |- preserves _ (try_except _ _ _) => apply preserves_try_except; preorder
  | |- preserves _ (if ?b then _ else _) => destruct b
  | |- preserves _ (match ?x with _ => _ end) => destruct x
  end.

(** The primitive effects, unfolded down to [checkpoint], [elapse], [log]
    and [modify]. *)
Ltac unfold_effects :=
  unfold clock, sleep, MidiFile, open_output, port_send, port_reset, port_close,
    SoundFile, sf_write, sf_close, unlink, InputStream, stream_close,
    enable_realtime, play_msg.

Ltac preserve_with tac :=
  repeat (first [ preserve_step | tac | progress unfold_effects ]).

(** *** What a piece of code may emit *)

#[local] Instance emits_preorder allowed : PreOrder (emits allowed).
Proof.
  split.
  - intros w. exists []. by rewrite app_nil_r.
  - intros w1 w2 w3 (n1 & E1 & F1) (n2 & E2 & F2). exists (n1 ++ n2).
    rewrite E2, E1, app_assoc. split; [done | by apply Forall_app].
Qed.

Lemma emits_same allowed w w' : w_trace w' = w_trace w -> emits allowed w w'.
Proof. intros E. exists []. by rewrite app_nil_r. Qed.

Lemma emits_omap {B} (f : Event -> option B) allowed w w' :
  (forall e, allowed e = true -> f e = None) ->
  emits allowed w w' -> omap f (w_trace w') = omap f (w_trace w).
Proof.
  intros Hf (new & -> & Hnew). rewrite omap_app.
  assert (omap f new = []) as ->; [|by rewrite app_nil_r].
  induction Hnew as [|e new He _ IH]; [done|]. simpl. by rewrite (Hf e He).
Qed.

Lemma emits_checkpoint allowed : preserves (emits allowed) checkpoint.
Proof. apply preserves_checkpoint; preorder. intros. by apply emits_same. Qed.

Lemma emits_elapse allowed d : preserves (emits allowed) (elapse d).
Proof. intros w. by apply emits_same. Qed.

Lemma emits_log allowed e : allowed e = true -> preserves (emits allowed) (log e).
Proof. intros He w. exists [e]. split; [done | by constructor]. Qed.

Lemma emits_modify allowed f :
  (forall w, w_trace (f w) = w_trace w) -> preserves (emits allowed) (modify f).
Proof. intros Hf w. apply emits_same, Hf. Qed.

Ltac emits_atom :=
  first [ apply emits_checkpoint
        | apply emits_elapse
        | apply emits_log; reflexivity
        | apply emits_modify; intros ?; simpl; repeat case_match; reflexivity ].

Ltac emits_tac := preserve_with emits_atom.

Lemma emits_play allowed start_time input_time mid :
  (forall d, allowed (EvSleep d) = true) ->
  (forall t m, allowed (EvSend t m) = true) ->
  preserves (emits allowed) (play start_time input_time mid).
Proof.
  intros Hsl Hsend. revert input_time.
  induction mid as [|msg mid IH]; intros input_time; simpl.
  - preserve_step.
  - preserve_step; [|apply IH].
    preserve_with ltac:(first [ apply emits_checkpoint | apply emits_elapse
                              | apply emits_log; (apply Hsl || apply Hsend) ]).
Qed.

Lemma emits_write_blocks allowed p bs : preserves (emits allowed) (write_blocks p bs).
Proof.
  induction bs as [|b bs IH]; simpl;
    preserve_with ltac:(first [exact IH | emits_atom]).
Qed.

Lemma emits_recording c mid settings :
  preserves (emits playing_event) (recording c mid settings).
Proof.
  unfold recording.
  preserve_with ltac:(first [ apply emits_play; reflexivity
                            | apply emits_write_blocks | emits_atom ]).
Qed.

Lemma playing_is_session_event w w' :
  emits playing_event w w' -> emits session_event w w'.
Proof.
  intros (new & E & F). exists new. split; [done|].
  eapply Forall_impl; [exact F|]. by intros [].
Qed.

Lemma emits_capture_performance c :
  preserves (emits session_event) (capture_performance c).
Proof.
  unfold capture_performance, teardown.
  preserve_with ltac:(first [ intros ?; apply playing_is_session_event, emits_recording
                            | emits_atom ]).
Qed.

(** *** What a piece of code does to the clock, the host and the disk *)

Lemma calm_tail env : calm env -> calm (tail env).
Proof. destruct env; [done|]. by inversion 1. Qed.

Lemma calm_next_lag env : calm env -> (0 <= next_lag env)%Q.
Proof. destruct env; simpl; [intros _; lra|]. by inversion 1. Qed.

#[local] Instance steady_preorder dst : PreOrder (steady dst).
Proof.
  split.
  - intros w. split_and!; [done| |done]. intros H. split; [done | lra].
  - intros w1 w2 w3 (H1 & C1 & D1) (H2 & C2 & D2). split_and!.
    + congruence.
    + intros Hc. destruct (C1 Hc) as [Hc2 L1]. destruct (C2 Hc2) as [Hc3 L2].
      split; [done | lra].
    + intros q Hq. by rewrite D2, D1.
Qed.

Lemma steady_same dst w w' :
  w_host w' = w_host w -> w_env w' = w_env w -> w_now w' = w_now w ->
  w_disk w' = w_disk w -> steady dst w w'.
Proof.
  intros Hh He Hn Hd. split_and!; [done| |by rewrite Hd].
  rewrite He, Hn. intros ?. split; [done | lra].
Qed.

Lemma steady_checkpoint dst : preserves (steady dst) checkpoint.
Proof. apply preserves_checkpoint; preorder. intros. by apply steady_same. Qed.

Lemma steady_elapse dst d : (0 <= d)%Q -> preserves (steady dst) (elapse d).
Proof.
  intros Hd w. split_and!; [done| |done]. simpl. intros Hc.
  split; [by apply calm_tail|]. pose proof (calm_next_lag _ Hc). lra.
Qed.

Lemma steady_log dst e : preserves (steady dst) (log e).
Proof. intros w. by apply steady_same. Qed.

Lemma steady_sleep dst d : preserves (steady dst) (sleep d).
Proof.
  unfold sleep. destruct (Qle_bool 0 d) eqn:Hd.
  - apply Qle_bool_iff in Hd.
    preserve_with ltac:(first [ apply steady_checkpoint | apply steady_log
                              | by apply steady_elapse ]).
  - preserve_step.
Qed.

Lemma steady_modify dst f :
  (forall w, w_host (f w) = w_host w /\ w_env (f w) = w_env w /\
             w_now (f w) = w_now w /\
             forall q : Path, q <> dst -> w_disk (f w) !! q = w_disk w !! q) ->
  preserves (steady dst) (modify f).
Proof.
  intros Hf w. destruct (Hf w) as (Hh & He & Hn & Hd). split_and!; [done| |done].
  simpl. rewrite He, Hn. intros ?. split; [done | lra].
Qed.

Ltac steady_atom :=
  first [ apply steady_checkpoint
        | apply steady_sleep
        | apply steady_elapse; lra
        | apply steady_log
        | apply steady_modify; intros ?; simpl; repeat case_match; simpl;
          split_and!; try done; intros ? ?;
          rewrite ?lookup_insert_ne, ?lookup_delete_ne by done; done ].

Lemma steady_play dst start_time input_time mid :
  preserves (steady dst) (play start_time input_time mid).
Proof.
  revert input_time. induction mid as [|msg mid IH]; intros input_time; simpl.
  - preserve_step.
  - preserve_step; [|apply IH]. preserve_with steady_atom.
Qed.

Lemma steady_write_blocks p bs : preserves (steady p) (write_blocks p bs).
Proof.
  induction bs as [|b bs IH]; simpl;
    preserve_with ltac:(first [exact IH | steady_atom]).
Qed.

Lemma steady_recording c mid settings :
  preserves (steady (output_audio_filepath c)) (recording c mid settings).
Proof.
  unfold recording.
  preserve_with ltac:(first [ apply steady_play | apply steady_write_blocks
                            | steady_atom ]).
Qed.

Lemma steady_capture_performance c :
  preserves (steady (output_audio_filepath c)) (capture_performance c).
Proof.
  unfold capture_performance, teardown.
  preserve_with ltac:(first [ apply steady_recording | steady_atom ]).
Qed.

#[local] Instance keeps_preorder dst : PreOrder (keeps dst).
Proof.
  split.
  - intros w H. exact H.
  - intros w1 w2 w3 H1 H2 H. apply H2, H1, H.
Qed.






(** * The properties *)

(** ** C10: [delay_ms] is not used by the capture session *)

(** C10.  Two capture sessions that differ in [delay_ms] only end alike from
    any world: the same outcome and the same final world, hence the same
    events dispatched at the same instants and the same audio file. *)
Theorem delay_ms_is_ignored (c : Capture) (d1 d2 : Z) (w : World) :
  capture_performance (with_delay_ms c d1) w
  = capture_performance (with_delay_ms c d2) w.
Proof. reflexivity. Qed.

(** ** C9: the weights check of the mono branch *)

(** C9.  With [stereo=False], absent weights raise the [ValueError] of the
    check, but every list of weights, empty or not, raises [TypeError] from
    the comparison [channel_weights < 1] inside [len(...)]: no list reaches
    the transcoding call, and the world is left as it was. *)
Theorem mono_weights_never_pass (a : Postprocess.Args) (weights : list Q)
    (w : World) :
  process_wav_files (mono_with a None) w = (Err ValueError, w) /\
  process_wav_files (mono_with a (Some weights)) w = (Err TypeError, w).
Proof. split; reflexivity. Qed.

(** ** C5: configurations that are refused *)




(** ** C4: no event is dispatched early *)

Lemma Qle_bool_false x y : Qle_bool x y = false -> (y < x)%Q.
Proof.
  intros H. apply Qnot_le_lt. intros Hle. apply Qle_bool_iff in Hle. congruence.
Qed.





(** ** C1: what a session dispatches *)

Lemma hoare_with_exit {A} (P Q1 Q : World -> Prop) (exit : M unit) (body : M A) :
  hoare P body (fun _ => Q1) -> hoare Q1 exit (fun _ => Q) ->
  hoare P (with_exit exit body) (fun _ => Q).
Proof.
  intros Hb He w HP. specialize (Hb w HP). unfold with_exit.
  destruct (body w) as [r w1]. specialize (He w1 Hb).
  by destruct (exit w1) as [[[]|e] w2].
Qed.

Lemma hoare_try_except {A} (P Q1 Q : World -> Prop) (body handler : M A) catches :
  hoare P body (fun _ => Q1) -> hoare Q1 handler (fun _ => Q) ->
  (forall w, Q1 w -> Q w) ->
  hoare P (try_except body catches handler) (fun _ => Q).
Proof.
  intros Hb Hh HQ w HP. specialize (Hb w HP). unfold try_except.
  destruct (body w) as [[a|e] w1]; simpl in *; [by apply HQ|].
  destruct (catches e); [by apply Hh | by apply HQ].
Qed.

Lemma hoare_silent {A} (m : M A) (sent : list Msg) :
  preserves (emits silent_event) m ->
  hoare (fun w => dispatched (w_trace w) = sent) m
        (fun _ w => dispatched (w_trace w) = sent).
Proof.
  intros Hm w <-. unfold dispatched, sends. f_equal.
  apply (emits_omap _ silent_event); [|apply Hm]. by intros [].
Qed.

Ltac proceeds_tac :=
  intros w (Hs & Hp & Hf & Hi & Hd);
  unfold_effects; unfold bind, checkpoint, elapse, log, modify, get, ret, raise;
  repeat (simpl; rewrite ?Hs, ?Hp, ?Hf, ?Hi);
  unfold ready, dispatched, sends; simpl; rewrite ?omap_app; simpl;
  rewrite ?app_nil_r; by split_and!.

Lemma proceeds_open_output sent name : proceeds sent (open_output name).
Proof. proceeds_tac. Qed.

Lemma proceeds_SoundFile sent p sr ch : proceeds sent (SoundFile p sr ch).
Proof. proceeds_tac. Qed.

Lemma proceeds_InputStream sent d sr ch cm : proceeds sent (InputStream d sr ch cm).
Proof. proceeds_tac. Qed.

Lemma proceeds_clock sent : proceeds sent clock.
Proof. proceeds_tac. Qed.

Lemma hoare_proceeds {A B} sent (m : M A) (f : A -> M B) Q :
  proceeds sent m -> (forall a, hoare (ready sent) (f a) Q) ->
  hoare (ready sent) (bind m f) Q.
Proof.
  intros Hm Hf. apply hoare_bind with (P' := fun _ => ready sent); [|done].
  intros w Hw. specialize (Hm w Hw). by destruct (m w).1.
Qed.

(** Undisturbed, one turn of the loop returns the new [input_time] and
    sends the event unless it is a meta event. *)
Lemma play_msg_ready sent start_time input_time msg w :
  ready sent w ->
  (play_msg start_time input_time msg w).1 = Ok (input_time + msg_time msg)%Q /\
  ready (sent ++ (if is_meta msg then [] else [msg]))
        (play_msg start_time input_time msg w).2.
Proof.
  intros (Hs & Hp & Hf & Hi & Hd).
  unfold play_msg, clock, sleep, port_send, bind, checkpoint, elapse, log,
    modify, get, ret, raise.
  repeat (simpl; rewrite ?Hs).
  destruct (Qle_bool _ 0) eqn:Hwait; repeat (simpl; rewrite ?Hs);
    [|apply Qle_bool_false in Hwait;
      assert (Qle_bool 0 (input_time + msg_time msg
                - (w_now w + 0 + next_lag (w_env w) - start_time)) = true) as ->
        by (apply Qle_bool_iff; lra);
      repeat (simpl; rewrite ?Hs)].
  all: destruct (is_meta msg); repeat (simpl; rewrite ?Hs).
  all: unfold ready, dispatched, sends in *; simpl; rewrite ?omap_app; simpl.
  all: rewrite ?app_nil_r, ?fmap_app; simpl; rewrite ?app_nil_r, ?Hd.
  all: by split_and!.
Qed.

Lemma play_ready sent start_time input_time mid w :
  ready sent w ->
  (play start_time input_time mid w).1
  = Ok (foldl (fun t m => (t + msg_time m)%Q) input_time mid) /\
  ready (sent ++ non_meta mid) (play start_time input_time mid w).2.
Proof.
  revert sent input_time w.
  induction mid as [|msg mid IH]; intros sent input_time w Hw; simpl.
  - unfold non_meta. simpl. by rewrite app_nil_r.
  - destruct (play_msg_ready sent start_time input_time msg w Hw) as [E1 R1].
    unfold bind. destruct (play_msg start_time input_time msg w) as [r w1].
    simpl in *. subst r.
    destruct (IH _ (input_time + msg_time msg)%Q w1 R1) as [E2 R2].
    split; [exact E2|].
    unfold non_meta in *. destruct (is_meta msg) eqn:Hm.
    + rewrite filter_cons_False by (by rewrite Hm). by rewrite app_nil_r in R2.
    + rewrite filter_cons_True by done. by rewrite <- app_assoc in R2.
Qed.

Lemma play_msg_returns start_time input_time msg w input_time' :
  (play_msg start_time input_time msg w).1 = Ok input_time' ->
  input_time' = (input_time + msg_time msg)%Q.
Proof.
  unfold play_msg, clock, sleep, port_send, bind, checkpoint, elapse, log,
    modify, get, ret, raise.
  destruct (w_sigint w) as [[|[|[|k]]]|] eqn:Hs; repeat (simpl; rewrite ?Hs).
  all: repeat (match goal with
               | |- context [Qle_bool ?a ?b] => destruct (Qle_bool a b)
               end; repeat (simpl; rewrite ?Hs)).
  all: try destruct (is_meta msg); repeat (simpl; rewrite ?Hs).
  all: congruence.
Qed.

Lemma play_returns start_time input_time mid w input_time' :
  (play start_time input_time mid w).1 = Ok input_time' ->
  input_time' = foldl (fun t m => (t + msg_time m)%Q) input_time mid.
Proof.
  revert input_time w. induction mid as [|msg mid IH]; intros input_time w; simpl.
  - congruence.
  - unfold bind.
    destruct (play_msg start_time input_time msg w) as [[t|e] w1] eqn:E; [|done].
    intros H. apply IH in H. subst input_time'.
    by rewrite (play_msg_returns start_time input_time msg w t) by (by rewrite E).
Qed.

Lemma silent_tail c :
  preserves (emits silent_event)
    (sleep 3 ;; audio_buffer <- get w_buffer ;
     write_blocks (output_audio_filepath c) audio_buffer).
Proof. preserve_with ltac:(first [apply emits_write_blocks | emits_atom]). Qed.

Lemma silent_teardown c : preserves (emits silent_event) (teardown c).
Proof. unfold teardown. emits_tac. Qed.

Lemma opened_session_dispatches c mid settings sent :
  hoare (ready sent)
    (open_output (output_port_name c) ;;
     with_exit port_close
       (SoundFile (output_audio_filepath c) (sample_rate c) (num_channels c) ;;
        with_exit sf_close
          (try_except (recording c mid settings) is_KeyboardInterrupt
                      (teardown c))))
    (fun _ w => dispatched (w_trace w) = sent ++ non_meta mid).
Proof.
  apply hoare_proceeds; [apply proceeds_open_output | intros _].
  eapply hoare_with_exit; [|apply hoare_silent; emits_tac].
  apply hoare_proceeds; [apply proceeds_SoundFile | intros _].
  eapply hoare_with_exit; [|apply hoare_silent; emits_tac].
  eapply hoare_try_except; [|apply hoare_silent, silent_teardown|done].
  unfold recording.
  apply hoare_proceeds; [apply proceeds_InputStream | intros _].
  eapply hoare_with_exit; [|apply hoare_silent; emits_tac].
  apply hoare_proceeds; [apply proceeds_clock | intros start_time].
  eapply hoare_bind with (P' := fun _ w => dispatched (w_trace w) = sent ++ non_meta mid);
    [|intros ?; apply hoare_silent, silent_tail].
  intros w Hw. destruct (play_ready sent start_time 0 mid w Hw) as [E R].
  rewrite E. apply R.
Qed.

(** C1.  A session that is not refused for its channel map, whose source
    parses to [mid], whose three devices open and that no Ctrl+C disturbs
    sends to the MIDI output exactly the non-meta events of [mid], in source
    order, after whatever had been sent before; no meta event is among
    them.  The meta events count for the timing all the same: whenever the
    player loop returns, its [input_time] is the sum of the deltas of all
    events, meta or not. *)
Theorem dispatches_non_meta_in_order (c : Capture) (mid : list Msg) (w : World) :
  channel_map_mismatch (num_channels c) (channel_map c) = false ->
  w_disk w !! input_midi_filepath c = Some (FMidi mid) ->
  w_sigint w = None ->
  h_port_fails (w_host w) = false ->
  h_soundfile_fails (w_host w) = false ->
  h_stream_fails (w_host w) = false ->
  dispatched (w_trace (capture_performance c w).2)
  = dispatched (w_trace w) ++ non_meta mid /\
  Forall (fun m => is_meta m = false) (non_meta mid) /\
  (forall start_time input_time w0 input_time',
     (play start_time input_time mid w0).1 = Ok input_time' ->
     input_time' = foldl (fun t m => (t + msg_time m)%Q) input_time mid).
Proof.
  intros Hmis Hdisk Hs Hp Hf Hi. split_and!.
  - unfold capture_performance. rewrite Hmis.
    set (session := fun mid : option (list Msg) => match mid with
                    | Some mid => _ | None => _ end).
    assert (hoare (fun w' => ready (dispatched (w_trace w)) w' /\
                             w_disk w' !! input_midi_filepath c = Some (FMidi mid))
              (mid <- try_except (evs <- MidiFile (input_midi_filepath c) ;
                                  ret (Some evs)) is_Exception (ret None) ;
               session mid)
              (fun _ w' => dispatched (w_trace w')
                           = dispatched (w_trace w) ++ non_meta mid)) as H.
    { eapply hoare_bind with
        (P' := fun r w' => r = Some mid /\ ready (dispatched (w_trace w)) w').
      - intros w' ((Hs' & Hp' & Hf' & Hi' & Hd') & Hdisk').
        unfold try_except, MidiFile, bind, checkpoint, elapse, modify, get, ret, raise.
        repeat (simpl; rewrite ?Hs', ?Hdisk'). by split_and!.
      - intros r w' [-> Hw']. by apply opened_session_dispatches. }
    apply (H (set_buffer [] w)). by split_and!.
  - unfold non_meta. apply Forall_forall. intros m Hm.
    by apply list_elem_of_filter in Hm as [Hm _].
  - intros. by eapply play_returns.
Qed.

Lemma dispatches_non_meta_in_order_witness :
  dispatched (w_trace (capture_performance demo_capture demo_world).2)
  = [note_on; note_off].
Proof.
  exact (proj1 (dispatches_non_meta_in_order demo_capture
                  [note_on; set_tempo; note_off] demo_world
                  eq_refl eq_refl eq_refl eq_refl eq_refl eq_refl)).
Defined.

(** ** C2, C3: interruption *)












(** The [except KeyboardInterrupt] clause when closing and deleting
    work. *)
Lemma teardown_succeeds (c : Capture) (w : World) :
  h_close_fails (w_host w) = false ->
  h_unlink_fails (w_host w) = false ->
  is_Some (w_disk w !! output_audio_filepath c) ->
  (teardown c w).1 = Err (SystemExit 130) /\
  w_disk (teardown c w).2 !! output_audio_filepath c = None /\
  resets (w_trace (teardown c w).2) = resets (w_trace w) ++ [tt].
Proof.
  unfold teardown, sf_close, unlink, port_reset, port_close, sys_exit, bind,
    log, modify, get, ret, raise.
  intros Hc Hu [f Hf].
  destruct (w_file_open w) eqn:Ho, (w_port_open w) eqn:Hp;
    repeat (simpl; rewrite ?Hc, ?Hu, ?Hf, ?Ho, ?Hp);
    unfold resets; rewrite ?omap_app; simpl;
    rewrite ?app_nil_r, ?lookup_delete_eq; done.
Qed.












(** C3, amended.  In the [except KeyboardInterrupt] clause the MIDI output
    is reset, once, when closing the file handle and deleting the
    destination both succeed, and the clause ends in [sys.exit(130)]; when
    the close raises, or the deletion raises or finds no file, the clause
    ends there in [OSError] and no reset is sent. *)
Theorem teardown_resets_after_audio_teardown (c : Capture) (w : World) :
  (h_close_fails (w_host w) = false ->
   h_unlink_fails (w_host w) = false ->
   is_Some (w_disk w !! output_audio_filepath c) ->
   (teardown c w).1 = Err (SystemExit 130) /\
   w_disk (teardown c w).2 !! output_audio_filepath c = None /\
   resets (w_trace (teardown c w).2) = resets (w_trace w) ++ [tt]) /\
  ((w_file_open w = true /\ h_close_fails (w_host w) = true) \/
   h_unlink_fails (w_host w) = true \/
   w_disk w !! output_audio_filepath c = None ->
   (teardown c w).1 = Err OSError /\
   resets (w_trace (teardown c w).2) = resets (w_trace w)).
Proof.
  split; [apply teardown_succeeds|].
  unfold teardown, sf_close, unlink, port_reset, port_close, sys_exit, bind,
    log, modify, get, ret, raise.
  intros H.
  destruct (w_file_open w) eqn:Ho, (h_close_fails (w_host w)) eqn:Hc,
    (h_unlink_fails (w_host w)) eqn:Hu,
    (w_disk w !! output_audio_filepath c) eqn:Hf;
    repeat (simpl; rewrite ?Hc, ?Hu, ?Hf, ?Ho); try done;
    destruct H as [[? ?]|[?|?]]; done.
Qed.

Lemma teardown_resets_after_audio_teardown_witness :
  resets (w_trace (teardown demo_capture
     (world0 quiet_host {[ ["out"; "a.wav"] := FWav 44100 2 [] ]} [] None)).2)
  = [tt].
Proof.
  apply (teardown_resets_after_audio_teardown demo_capture
           (world0 quiet_host {[ ["out"; "a.wav"] := FWav 44100 2 [] ]} [] None)).
  - reflexivity.
  - reflexivity.
  - exists (FWav 44100 2 []). vm_compute. reflexivity.
Defined.

(** C3 as stated fails: the deletion (or the close) raises, the session is
    interrupted all the same, and the output port gets no reset. *)
Lemma reset_skipped_when_audio_teardown_fails :
  let failing unlink_fails close_fails :=
    {| h_port_fails := false; h_soundfile_fails := false;
       h_stream_fails := false; h_close_fails := close_fails;
       h_unlink_fails := unlink_fails; h_realtime_fails := false;
       h_rglob := fun _ _ => []; h_st_size := fun _ => 0%Z |} in
  let run_in h :=
    capture_performance demo_capture (world0 h demo_disk demo_env (Some 6%nat)) in
  (run_in (failing true false)).1 = Err OSError /\
  w_sigint (run_in (failing true false)).2 = None /\
  resets (w_trace (run_in (failing true false)).2) = [] /\
  (run_in (failing false true)).1 = Err OSError /\
  resets (w_trace (run_in (failing false true)).2) = [].
Proof. vm_compute. by split_and!. Qed.

(** ** C6: device errors while opening *)

Lemma capture_performance_device_error c mid dev w :
  w_sigint w = None ->
  channel_map_mismatch (num_channels c) (channel_map c) = false ->
  w_disk w !! input_midi_filepath c = Some (FMidi mid) ->
  first_fault (w_host w) = Some dev ->
  h_close_fails (w_host w) = false ->
  (capture_performance c w).1 = Err (DeviceError dev) /\
  sends (w_trace (capture_performance c w).2) = sends (w_trace w) /\
  sessions (w_trace (capture_performance c w).2) = sessions (w_trace w).
Proof.
  intros Hs Hmis Hd Hfault Hc. unfold first_fault in Hfault.
  unfold capture_performance. rewrite Hmis.
  unfold recording, teardown, try_except, with_exit, MidiFile, open_output,
    SoundFile, InputStream, sf_close, port_close, stream_close, bind,
    checkpoint, elapse, log, modify, get, ret, raise.
  repeat (simpl; rewrite ?Hs, ?Hd).
  destruct (h_port_fails (w_host w)) eqn:Hp; repeat (simpl; rewrite ?Hs, ?Hd, ?Hp).
  2: destruct (h_soundfile_fails (w_host w)) eqn:Hf;
       repeat (simpl; rewrite ?Hs, ?Hd, ?Hp, ?Hf, ?Hc).
  3: destruct (h_stream_fails (w_host w)) eqn:Hi; [|done];
       repeat (simpl; rewrite ?Hs, ?Hd, ?Hp, ?Hf, ?Hc, ?Hi).
  all: injection Hfault as <-.
  all: unfold sends, sessions; rewrite ?omap_app; simpl; rewrite ?app_nil_r.
  all: done.
Qed.

#[local] Arguments capture_performance : simpl never.

(** C6, amended.  When the source at the head of the batch has no
    destination yet and parses, and one of the three openings fails (with no
    Ctrl+C pending, a cooldown rest that is not negative and a file handle
    that closes), the session raises the device error before anything is
    sent to the MIDI output, and the batch ends there with that error: the
    session of this source is the last one, the remaining sources are not
    visited. *)
Theorem device_error_ends_the_batch (a : Batch.Args)
    (cooldown_threshold_sec cooldown_duration_sec : Z) (cooldown_timer : Q)
    (src dst : Path) (rest : list Path) (mid : list Msg) (dev : Device)
    (w : World) :
  w_sigint w = None ->
  (0 <= cooldown_duration_sec)%Z ->
  channel_map_mismatch (Batch.num_channels a) (Batch.channel_map a) = false ->
  output_path (Batch.input_midi_root a) (Batch.output_audio_root a)
              (Batch.output_suffix a) src = Some dst ->
  w_disk w !! dst = None ->
  w_disk w !! src = Some (FMidi mid) ->
  first_fault (w_host w) = Some dev ->
  h_close_fails (w_host w) = false ->
  let batch := run_loop a cooldown_threshold_sec cooldown_duration_sec
                        cooldown_timer (src :: rest) w in
  batch.1 = Err (DeviceError dev) /\
  sends (w_trace batch.2) = sends (w_trace w) /\
  sessions (w_trace batch.2) = sessions (w_trace w) ++ [(src, dst)].
Proof.
  intros Hs Hdur Hmis Hout Hdst Hsrc Hfault Hc. simpl.
  assert (Qle_bool 0 (inject_Z cooldown_duration_sec) = true) as Hq.
  { apply Qle_bool_iff. unfold Qle. simpl. lia. }
  unfold clock, cooldown_rest, sleep, bind, checkpoint, elapse, log, modify,
    get, ret, raise.
  repeat (simpl; rewrite ?Hs, ?Hout, ?Hdst, ?Hq).
  destruct (Qle_bool _ (inject_Z cooldown_threshold_sec));
    unfold clock, bind, checkpoint, elapse, modify, get, ret;
    repeat (simpl; rewrite ?Hs, ?Hout, ?Hdst, ?Hq).
  all: match goal with
       | |- context [capture_performance ?c ?W] =>
           destruct (capture_performance_device_error c mid dev W)
             as (E & S1 & S2); [simpl; done..|];
           destruct (capture_performance c W) as [r w']
       end.
  all: simpl in *; subst r; simpl.
  all: rewrite S1, S2; unfold sends, sessions; rewrite ?omap_app; simpl.
  all: rewrite ?app_nil_r; done.
Qed.

Lemma device_error_ends_the_batch_witness :
  let w := world0 (demo_host true [["in"; "a.mid"]; ["in"; "b.mid"]])
                  two_midi_disk demo_env None in
  let batch := run_loop (demo_batch 2 None (Some (15, 3)%Z)) 900 180 0
                        [["in"; "a.mid"]; ["in"; "b.mid"]] w in
  batch.1 = Err (DeviceError MidiPort) /\
  sends (w_trace batch.2) = [] /\
  sessions (w_trace batch.2) = [(["in"; "a.mid"], ["out"; "a.wav"])].
Proof.
  apply (device_error_ends_the_batch (demo_batch 2 None (Some (15, 3)%Z))
           900 180 0 ["in"; "a.mid"] ["out"; "a.wav"] [["in"; "b.mid"]]
           [note_on; set_tempo; note_off] MidiPort
           (world0 (demo_host true [["in"; "a.mid"]; ["in"; "b.mid"]])
                   two_midi_disk demo_env None));
    first [ reflexivity | lia | vm_compute; reflexivity ].
Defined.

(** C6 as stated fails: the port cannot be opened for the first of two
    sources, and the batch ends with that error; the second source is never
    given a session. *)
Lemma batch_stops_at_device_error :
  let a := demo_batch 2 None (Some (15, 3)%Z) in
  let w := world0 (demo_host true [["in"; "a.mid"]; ["in"; "b.mid"]])
                  two_midi_disk demo_env None in
  (run a w).1 = Err (DeviceError MidiPort) /\
  sessions (w_trace (run a w).2) = [(["in"; "a.mid"], ["out"; "a.wav"])].
Proof. vm_compute. by split. Qed.

(** ** C7: the cooldown *)

Lemma gaps_ok_snoc th l b e :
  gaps_ok th l ->
  (forall r, last l = Some r -> (r.2 + th <= b)%Q) ->
  gaps_ok th (l ++ [(b, e)]).
Proof.
  intros Hl Hlast i r1 r2 H1 H2.
  destruct (decide (S i < length l)) as [Hi|Hi].
  - rewrite lookup_app_l in H1 by lia. rewrite lookup_app_l in H2 by lia.
    by eapply Hl.
  - assert (S i = length l) as Hlen.
    { apply lookup_lt_Some in H2. rewrite length_app in H2. simpl in H2. lia. }
    rewrite lookup_app_l in H1 by lia.
    rewrite lookup_app_r in H2 by lia.
    replace (S i - length l) with 0 in H2 by lia. injection H2 as <-. simpl.
    apply Hlast. rewrite last_lookup. by replace (pred (length l)) with i by lia.
Qed.

Lemma cooled_later th timer dst w w' :
  cooled th timer w -> steady dst w w' ->
  rests (w_trace w') = rests (w_trace w) -> cooled th timer w'.
Proof.
  intros (Hc & Ht & Hg & Hl) (_ & Hs & _) Hr. destruct (Hs Hc) as [Hc' Hn].
  unfold cooled. rewrite Hr. split_and!; try done. lra.
Qed.

Lemma hoare_bind_inv {A B} (P I : World -> Prop) (P' : A -> World -> Prop)
    (Q : World -> Prop) (m : M A) (f : A -> M B) :
  hoare P m (fun r w => I w /\ forall a, r = Ok a -> P' a w) ->
  (forall w, I w -> Q w) ->
  (forall a, hoare (P' a) (f a) (fun _ => Q)) ->
  hoare P (bind m f) (fun _ => Q).
Proof.
  intros Hm HI Hf w HP. destruct (Hm w HP) as [Hi Hok]. unfold bind.
  destruct (m w) as [[a|e] w1]; simpl in *; [|by apply HI].
  apply Hf. by apply Hok.
Qed.

Lemma cooled_clock th timer :
  hoare (cooled th timer) clock
        (fun r w => cooled th timer w /\ forall now, r = Ok now -> now = w_now w).
Proof.
  intros w Hw. split.
  - apply (cooled_later th timer [] w); [done| |].
    + assert (preserves (steady []) clock) as H by preserve_with steady_atom.
      apply H.
    + apply (emits_omap _ session_event); [by intros []|].
      assert (preserves (emits session_event) clock) as H by emits_tac. apply H.
  - unfold clock, bind, checkpoint, elapse, modify, get, ret.
    destruct (w_sigint w) as [[|k]|]; simpl; congruence.
Qed.

(** A rest taken more than [th] seconds after the timer was read keeps the
    batch [cooled], with the timer read anew. *)
Lemma cooled_rest th timer dur :
  hoare (fun w => cooled th timer w /\ (timer + th < w_now w)%Q)
        (cooldown_rest dur)
        (fun r w => gaps_ok th (rests (w_trace w)) /\
                    forall timer', r = Ok timer' -> cooled th timer' w).
Proof.
  intros w [(Hc & Ht & Hg & Hl) Hlate].
  pose proof (calm_next_lag _ Hc) as L0.
  pose proof (calm_tail _ Hc) as Hc1.
  pose proof (calm_next_lag _ Hc1) as L1.
  pose proof (calm_tail _ Hc1) as Hc2.
  assert (gaps_ok th (rests (w_trace w) ++
            [(w_now w, (w_now w + inject_Z dur + next_lag (w_env w))%Q)])) as Hg'.
  { apply gaps_ok_snoc; [done|]. intros r Hr. specialize (Hl r Hr). lra. }
  unfold cooldown_rest, clock, sleep, bind, checkpoint, elapse, log, modify,
    get, ret, raise.
  destruct (Qle_bool 0 (inject_Z dur)) eqn:Hd; [apply Qle_bool_iff in Hd|];
    destruct (w_sigint w) as [[|[|k]]|] eqn:Hs; repeat (simpl; rewrite ?Hs).
  all: unfold cooled, rests in *; simpl; rewrite ?omap_app; simpl.
  all: rewrite ?app_nil_r; split; try done.
  all: intros timer' [= <-]; split_and!; try done; try lra.
  all: intros r; rewrite last_snoc; intros [= <-]; simpl; lra.
Qed.

Lemma cooled_gaps th timer w : cooled th timer w -> gaps_ok th (rests (w_trace w)).
Proof. by intros (_ & _ & H & _). Qed.

Lemma rests_capture_performance c w :
  rests (w_trace (capture_performance c w).2) = rests (w_trace w).
Proof.
  apply (emits_omap _ session_event); [by intros []|].
  apply emits_capture_performance.
Qed.

Lemma run_loop_cooled a th dur paths timer :
  hoare (cooled (inject_Z th) timer) (run_loop a th dur timer paths)
        (fun _ w => gaps_ok (inject_Z th) (rests (w_trace w))).
Proof.
  revert timer. induction paths as [|p paths IH]; intros timer; simpl.
  { intros w Hw. by eapply cooled_gaps. }
  eapply hoare_bind_inv with
    (I := cooled (inject_Z th) timer)
    (P' := fun now w => cooled (inject_Z th) timer w /\ now = w_now w).
  { intros w Hw. destruct (cooled_clock _ _ w Hw) as [H1 H2].
    split; [done|]. intros now Hnow. split; [done | by apply H2]. }
  { intros w. apply cooled_gaps. }
  intros now.
  eapply hoare_bind_inv with
    (I := fun w => gaps_ok (inject_Z th) (rests (w_trace w)))
    (P' := fun timer' w => cooled (inject_Z th) timer' w).
  { destruct (Qle_bool (now - timer) (inject_Z th)) eqn:Hcond; simpl.
    - intros w [Hw _]. split; [by eapply cooled_gaps|]. by intros ? [= <-].
    - apply Qle_bool_false in Hcond. intros w [Hw ->].
      apply (cooled_rest _ timer dur w). split; [done | lra]. }
  { done. }
  intros timer'.
  destruct (output_path _ _ _ p) as [out|]; [|intros w Hw; by eapply cooled_gaps].
  intros w Hw. unfold bind at 1. simpl.
  destruct (bool_decide (is_Some (w_disk w !! out))); [by apply IH|].
  unfold bind, log, modify. simpl.
  set (w1 := set_trace (w_trace w ++ [EvSession p out]) w).
  assert (cooled (inject_Z th) timer' w1) as Hw1.
  { destruct Hw as (Hc & Ht & Hg & Hl). unfold cooled, w1, rests. simpl.
    rewrite omap_app. simpl. by rewrite app_nil_r. }
  pose proof (cooled_later _ _ _ _ _ Hw1
                (steady_capture_performance (session_of a p out) w1)
                (rests_capture_performance _ w1)) as Hw2.
  destruct (capture_performance (session_of a p out) w1) as [[[]|e] w2]; simpl in *.
  - by apply IH.
  - by eapply cooled_gaps.
Qed.

(** C7.  In a batch started from a world whose environment never turns
    the clock back and whose trace holds no rest yet, any two consecutive
    cooldown rests are apart by at least the configured threshold, from the
    end of the first to the beginning of the second.  Rests are taken
    between sessions only: a capture session, however it ends, adds no rest
    to the trace. *)
Theorem cooldown_rests_are_apart (a : Batch.Args) (playtime_min sleep_min : Z)
    (w : World) :
  calm (w_env w) ->
  rests (w_trace w) = [] ->
  Batch.cooldown_parameters a = Some (playtime_min, sleep_min) ->
  (forall i r1 r2,
     rests (w_trace (run a w).2) !! i = Some r1 ->
     rests (w_trace (run a w).2) !! S i = Some r2 ->
     (r1.2 + inject_Z (playtime_min * 60) <= r2.1)%Q) /\
  (forall c w0,
     rests (w_trace (capture_performance c w0).2) = rests (w_trace w0)).
Proof.
  intros Hc Hr Hcp. split; [|apply rests_capture_performance].
  change (gaps_ok (inject_Z (playtime_min * 60)) (rests (w_trace (run a w).2))).
  assert (gaps_ok (inject_Z (playtime_min * 60)) (rests (w_trace w))) as Hg0.
  { rewrite Hr. by intros i r1 r2 H. }
  unfold run. rewrite Hcp.
  destruct (channel_map_mismatch _ _); [done|].
  destruct (sleep_min =? 0)%Z; [done|].
  destruct (ratio_exceeds _ _); [done|].
  unfold bind at 1. simpl.
  assert (hoare (fun w' => calm (w_env w') /\ rests (w_trace w') = [])
            (if Batch.realtime a then enable_realtime else ret tt)
            (fun _ w' => calm (w_env w') /\ rests (w_trace w') = [])) as Hrt.
  { intros w' [Hc' Hr']. unfold enable_realtime, bind, log, modify, get, ret, raise.
    destruct (Batch.realtime a); [|done]. simpl.
    destruct (h_realtime_fails (w_host w')); simpl;
      unfold rests in *; rewrite omap_app; simpl; by rewrite Hr'. }
  specialize (Hrt w (conj Hc Hr)). unfold bind at 1.
  destruct ((if Batch.realtime a then enable_realtime else ret tt) w)
    as [[[]|e] w1]; simpl in *.
  2: { destruct Hrt as [_ ->]. by intros i r1 r2 H. }
  destruct Hrt as [Hc1 Hr1].
  assert (cooled (inject_Z (playtime_min * 60)) (w_now w1) w1) as Hw1.
  { unfold cooled. rewrite Hr1. split_and!; try done. lra. }
  destruct (cooled_clock _ _ w1 Hw1) as [Hw2 Hnow]. unfold bind.
  destruct (clock w1) as [[now|e] w2]; simpl in *; [|by eapply cooled_gaps].
  rewrite (Hnow now eq_refl) in *.
  apply run_loop_cooled.
  destruct Hw2 as (? & ? & ? & Hl). split_and!; try done; [lra|].
  intros r Hlast. specialize (Hl r Hlast).
  assert (preserves (steady []) clock) as Hst by preserve_with steady_atom.
  destruct (Hst w1) as (_ & Hmono & _). destruct (Hmono Hc1) as [_ Hle].
  lra.
Qed.

Lemma cooldown_rests_are_apart_witness :
  rests (w_trace (run (demo_batch 2 None (Some (1, 1)%Z)) slow_world).2)
  = [(603, 713); (1166, 1276)]%Q /\
  (713 + inject_Z (1 * 60) <= 1166)%Q.
Proof.
  split; [vm_compute; reflexivity|].
  assert (calm (w_env slow_world)) as Hc.
  { unfold calm. simpl. repeat constructor; simpl; lra. }
  apply (proj1 (cooldown_rests_are_apart (demo_batch 2 None (Some (1, 1)%Z))
                  1 1 slow_world Hc eq_refl eq_refl)
               0%nat (603, 713)%Q (1166, 1276)%Q);
    vm_compute; reflexivity.
Defined.

(** ** C8: resuming a batch *)

#[local] Instance unchanged_preorder {A} (f : World -> A) : PreOrder (unchanged f).
Proof.
  split.
  - by intros w.
  - intros w1 w2 w3 H1 H2. unfold unchanged in *. congruence.
Qed.

Ltac disk_atom :=
  first [ apply preserves_checkpoint; preorder; by intros
        | apply preserves_modify; by intros ].

Lemma sessions_emits allowed w w' :
  (forall s d, allowed (EvSession s d) = false) -> emits allowed w w' ->
  sessions (w_trace w') = sessions (w_trace w).
Proof.
  intros Ha. apply emits_omap. intros [] He; try done. by rewrite Ha in He.
Qed.

Section Resume.
Variables (a : Batch.Args) (dst : Path) (f : File).

Lemma resumed_later w w' :
  resumed a dst f w -> w_disk w' !! dst = w_disk w !! dst ->
  sessions (w_trace w') = sessions (w_trace w) -> resumed a dst f w'.
Proof. intros [Hd Hs] Ed Es. unfold resumed. by rewrite Ed, Es. Qed.

Lemma resumed_between {A} (m : M A) :
  preserves (unchanged w_disk) m -> preserves (emits between_event) m ->
  forall w, resumed a dst f w -> resumed a dst f (m w).2.
Proof.
  intros Hd He w Hw. apply (resumed_later w); [done| |].
  - by rewrite (Hd w).
  - by apply (sessions_emits between_event); [|apply He].
Qed.

Lemma resumed_run_loop th dur paths timer :
  hoare (resumed a dst f) (run_loop a th dur timer paths)
        (fun _ => resumed a dst f).
Proof.
  revert timer. induction paths as [|p paths IH]; intros timer; simpl.
  { by intros w Hw. }
  eapply hoare_bind_inv with
    (I := resumed a dst f) (P' := fun _ => resumed a dst f); [|done|].
  { intros w Hw.
    assert (resumed a dst f (clock w).2) as H; [|done].
    apply resumed_between; [preserve_with disk_atom | emits_tac | done]. }
  intros now.
  eapply hoare_bind_inv with
    (I := resumed a dst f) (P' := fun _ => resumed a dst f); [|done|].
  { intros w Hw. destruct (negb _); [|done].
    assert (resumed a dst f (cooldown_rest dur w).2) as H; [|done].
    apply resumed_between; [| |done]; unfold cooldown_rest;
      [preserve_with disk_atom | emits_tac]. }
  intros timer'.
  destruct (output_path _ _ _ p) as [out|] eqn:Hout; [|by intros w Hw].
  intros w Hw. unfold bind at 1. simpl.
  destruct (bool_decide (is_Some (w_disk w !! out))) eqn:Hex; [by apply IH|].
  apply bool_decide_eq_false in Hex.
  assert (out <> dst) as Hne.
  { intros ->. destruct Hw as [Hd _]. apply Hex. by rewrite Hd. }
  unfold bind, log, modify. simpl.
  set (w1 := set_trace (w_trace w ++ [EvSession p out]) w).
  assert (resumed a dst f w1) as Hw1.
  { destruct Hw as [Hd Hs]. unfold resumed, w1, sessions. simpl.
    rewrite omap_app. simpl. split; [done|]. apply Forall_app. split; [done|].
    by repeat constructor. }
  assert (resumed a dst f (capture_performance (session_of a p out) w1).2) as Hw2.
  { apply (resumed_later w1); [done| |].
    - destruct (steady_capture_performance (session_of a p out) w1)
        as (_ & _ & Hfr). by apply Hfr.
    - apply (sessions_emits session_event); [done|].
      apply emits_capture_performance. }
  destruct (capture_performance (session_of a p out) w1) as [[[]|e] w2];
    simpl in *; [by apply IH | done].
Qed.
End Resume.

(** C8.  Let [dst] be the destination derived from the source [src], and
    let it hold the file [f] when the batch starts (with no session in the
    trace yet).  Then, however the batch ends, [dst] still holds [f], and
    no session of the batch was for the source [src] or wrote to [dst]. *)
Theorem existing_destination_is_skipped (a : Batch.Args) (src dst : Path)
    (f : File) (w : World) :
  output_path (Batch.input_midi_root a) (Batch.output_audio_root a)
              (Batch.output_suffix a) src = Some dst ->
  w_disk w !! dst = Some f ->
  sessions (w_trace w) = [] ->
  w_disk (run a w).2 !! dst = Some f /\
  forall s d, (s, d) ∈ sessions (w_trace (run a w).2) -> s <> src /\ d <> dst.
Proof.
  intros Hout Hd Hs.
  assert (resumed a dst f w) as Hw by (split; [done | by rewrite Hs]).
  assert (resumed a dst f (run a w).2) as [Hd' Hs'].
  { unfold run.
    destruct (channel_map_mismatch _ _); [done|].
    destruct (Batch.cooldown_parameters a) as [[playtime_min sleep_min]|]; [|done].
    destruct (sleep_min =? 0)%Z; [done|].
    destruct (ratio_exceeds _ _); [done|].
    unfold bind at 1. simpl.
    assert (resumed a dst f
              ((if Batch.realtime a then enable_realtime else ret tt) w).2) as H1.
    { apply resumed_between; [| |done]; destruct (Batch.realtime a);
        unfold enable_realtime; [preserve_with disk_atom.. | emits_tac | emits_tac]. }
    unfold bind at 1.
    destruct ((if Batch.realtime a then enable_realtime else ret tt) w)
      as [[[]|e] w1]; simpl in *; [|done].
    assert (resumed a dst f (clock w1).2) as H2.
    { apply resumed_between; [preserve_with disk_atom | emits_tac | done]. }
    unfold bind. destruct (clock w1) as [[now|e] w2]; simpl in *; [|done].
    by apply resumed_run_loop. }
  split; [done|]. intros s d Hin.
  rewrite Forall_forall in Hs'. destruct (Hs' _ Hin) as [Hder Hne]. simpl in *.
  split; [|done]. intros ->. congruence.
Qed.

Lemma existing_destination_is_skipped_witness :
  let w := world0 (demo_host false [["in"; "a.mid"]; ["in"; "b.mid"]])
                  (<[ ["out"; "a.wav"] := FOther ]> two_midi_disk) demo_env None in
  let a := demo_batch 2 None (Some (15, 3)%Z) in
  w_disk (run a w).2 !! ["out"; "a.wav"] = Some FOther /\
  forall s d, (s, d) ∈ sessions (w_trace (run a w).2) ->
              s <> ["in"; "a.mid"] /\ d <> ["out"; "a.wav"].
Proof.
  apply (existing_destination_is_skipped (demo_batch 2 None (Some (15, 3)%Z))
           ["in"; "a.mid"] ["out"; "a.wav"] FOther
           (world0 (demo_host false [["in"; "a.mid"]; ["in"; "b.mid"]])
                   (<[ ["out"; "a.wav"] := FOther ]> two_midi_disk) demo_env None));
    vm_compute; reflexivity.
Defined.


(** * Further properties of the capture session *)

(** ** Sessions that do not start *)

(** A session whose source is missing or does not parse, undisturbed. *)
Lemma unusable_session_skips (c : Capture) (w : World) :
  w_sigint w = None ->
  (forall mid, w_disk w !! input_midi_filepath c <> Some (FMidi mid)) ->
  (capture_performance c w).1 = Ok tt /\
  w_disk (capture_performance c w).2 = w_disk w /\
  w_trace (capture_performance c w).2 = w_trace w /\
  w_sigint (capture_performance c w).2 = None.
Proof.
  unfold capture_performance. intros Hs Hsrc.
  destruct (channel_map_mismatch _ _); [done|].
  unfold try_except, MidiFile, bind, checkpoint, elapse, modify, get, ret, raise.
  repeat (simpl; rewrite ?Hs).
  destruct (w_disk w !! input_midi_filepath c) as [[mid| |]|] eqn:Hd;
    simpl; try done.
  by destruct (Hsrc mid).
Qed.

(** X1.  A session whose channel map does not match the channel count, or
    whose source is missing or does not parse (with no Ctrl+C pending),
    returns without an error and without having opened a device, sent a
    message or created a file: the disk and the trace are as before. *)
Theorem unusable_session_is_skipped (c : Capture) (w : World) :
  channel_map_mismatch (num_channels c) (channel_map c) = true \/
  (w_sigint w = None /\
   forall mid, w_disk w !! input_midi_filepath c <> Some (FMidi mid)) ->
  (capture_performance c w).1 = Ok tt /\
  w_disk (capture_performance c w).2 = w_disk w /\
  w_trace (capture_performance c w).2 = w_trace w.
Proof.
  unfold capture_performance. intros [Hmis | [Hs Hsrc]].
  - by rewrite Hmis.
  - destruct (unusable_session_skips c w Hs Hsrc) as (? & ? & ? & _). done.
Qed.

Lemma unusable_session_is_skipped_witness :
  (capture_performance demo_capture (world0 quiet_host ∅ demo_env None)).1 = Ok tt.
Proof.
  apply (unusable_session_is_skipped demo_capture
           (world0 quiet_host ∅ demo_env None)).
  right. split; [reflexivity|]. intros mid. vm_compute. discriminate.
Defined.

(** X2.  In the batch, a source that is missing or does not parse costs one
    session that does nothing: with no Ctrl+C pending, a rest that is not
    negative and a destination that does not exist yet, the loop goes on
    with the remaining sources, from a world with the same disk in which
    nothing has been sent. *)
Theorem batch_continues_after_source_error (a : Batch.Args)
    (cooldown_threshold_sec cooldown_duration_sec : Z) (cooldown_timer : Q)
    (src dst : Path) (rest : list Path) (w : World) :
  w_sigint w = None ->
  (0 <= cooldown_duration_sec)%Z ->
  output_path (Batch.input_midi_root a) (Batch.output_audio_root a)
              (Batch.output_suffix a) src = Some dst ->
  w_disk w !! dst = None ->
  (forall mid, w_disk w !! src <> Some (FMidi mid)) ->
  exists cooldown_timer' w',
    run_loop a cooldown_threshold_sec cooldown_duration_sec cooldown_timer
             (src :: rest) w
    = run_loop a cooldown_threshold_sec cooldown_duration_sec cooldown_timer'
               rest w' /\
    w_sigint w' = None /\
    w_disk w' = w_disk w /\
    sends (w_trace w') = sends (w_trace w) /\
    sessions (w_trace w') = sessions (w_trace w) ++ [(src, dst)].
Proof.
  intros Hs Hdur Hout Hdst Hsrc. simpl.
  assert (Qle_bool 0 (inject_Z cooldown_duration_sec) = true) as Hq.
  { apply Qle_bool_iff. unfold Qle. simpl. lia. }
  unfold clock, cooldown_rest, sleep, bind, checkpoint, elapse, log, modify,
    get, ret, raise.
  repeat (simpl; rewrite ?Hs, ?Hout, ?Hdst, ?Hq).
  destruct (Qle_bool _ (inject_Z cooldown_threshold_sec));
    unfold clock, bind, checkpoint, elapse, modify, get, ret;
    repeat (simpl; rewrite ?Hs, ?Hout, ?Hdst, ?Hq).
  all: match goal with
       | |- context [capture_performance ?c ?W] =>
           destruct (unusable_session_skips c W) as (E & D & T & S);
             [simpl; done..|];
           destruct (capture_performance c W) as [r w']
       end.
  all: simpl in *; subst r; simpl.
  all: eexists _, w'; split; [reflexivity|].
  all: rewrite S, D, T; unfold sends, sessions; rewrite ?omap_app; simpl.
  all: rewrite ?app_nil_r; done.
Qed.

Lemma batch_continues_after_source_error_witness :
  exists cooldown_timer' w',
    run_loop (demo_batch 2 None (Some (15, 3)%Z)) 900 180 0
             [["in"; "x.mid"]; ["in"; "a.mid"]] demo_world
    = run_loop (demo_batch 2 None (Some (15, 3)%Z)) 900 180 cooldown_timer'
               [["in"; "a.mid"]] w' /\
    w_sigint w' = None /\
    w_disk w' = w_disk demo_world /\
    sends (w_trace w') = sends (w_trace demo_world) /\
    sessions (w_trace w') = sessions (w_trace demo_world)
                            ++ [(["in"; "x.mid"], ["out"; "x.wav"])].
Proof.
  apply (batch_continues_after_source_error (demo_batch 2 None (Some (15, 3)%Z))
           900 180 0 ["in"; "x.mid"] ["out"; "x.wav"] [["in"; "a.mid"]]
           demo_world).
  - reflexivity.
  - lia.
  - vm_compute. reflexivity.
  - vm_compute. reflexivity.
  - intros mid. vm_compute. discriminate.
Defined.

(** ** Sessions that run to their end *)

Ltac unchanged_atom :=
  first [ apply preserves_checkpoint; preorder; by intros
        | apply preserves_modify; by intros ].

Lemma unchanged_play {A} (f : World -> A) start_time input_time mid :
  (forall w s, f (set_sigint s w) = f w) ->
  (forall w n e b, f (set_clock n e b w) = f w) ->
  (forall w t, f (set_trace t w) = f w) ->
  preserves (unchanged f) (play start_time input_time mid).
Proof.
  intros H1 H2 H3. revert input_time.
  induction mid as [|msg mid IH]; intros input_time; simpl.
  - preserve_step.
  - preserve_step; [|apply IH].
    preserve_with ltac:(first
      [ apply preserves_checkpoint; preorder; intros; apply H1
      | apply preserves_modify; intros; first [apply H2 | apply H3] ]).
Qed.

(** Undisturbed and on a clock that never goes back, one turn of the loop
    ends no earlier than the event is due. *)
Lemma play_msg_due start_time input_time msg w :
  w_sigint w = None -> calm (w_env w) ->
  calm (w_env (play_msg start_time input_time msg w).2) /\
  (start_time + (input_time + msg_time msg)
   <= w_now (play_msg start_time input_time msg w).2)%Q.
Proof.
  intros Hs Hc.
  pose proof (calm_next_lag _ Hc) as L0.
  pose proof (calm_tail _ Hc) as Hc1.
  pose proof (calm_next_lag _ Hc1) as L1.
  pose proof (calm_tail _ Hc1) as Hc2.
  unfold play_msg, clock, sleep, port_send, bind, checkpoint, elapse, log,
    modify, get, ret, raise.
  repeat (simpl; rewrite ?Hs).
  destruct (Qle_bool _ 0) eqn:Hwait; repeat (simpl; rewrite ?Hs);
    [apply Qle_bool_iff in Hwait | apply Qle_bool_false in Hwait].
  2: destruct (Qle_bool 0 _) eqn:Hpos; repeat (simpl; rewrite ?Hs);
       [|apply Qle_bool_false in Hpos].
  all: destruct (is_meta msg); repeat (simpl; rewrite ?Hs).
  all: split; [done | lra].
Qed.

Lemma play_due sent start_time input_time mid w :
  ready sent w -> calm (w_env w) ->
  (start_time + input_time <= w_now w)%Q ->
  calm (w_env (play start_time input_time mid w).2) /\
  (start_time + foldl (fun t m => (t + msg_time m)%Q) input_time mid
   <= w_now (play start_time input_time mid w).2)%Q.
Proof.
  revert sent input_time w.
  induction mid as [|msg mid IH]; intros sent input_time w Hw Hc Hle; simpl.
  - done.
  - destruct (play_msg_ready sent start_time input_time msg w Hw) as [E1 R1].
    destruct (play_msg_due start_time input_time msg w) as [Hc1 Hle1];
      [apply Hw | done |].
    unfold bind. destruct (play_msg start_time input_time msg w) as [r w1].
    simpl in *. subst r. by eapply IH.
Qed.

(** [for data in audio_buffer: file.write(data)], undisturbed: the blocks
    are appended to the file in order, and nothing else changes. *)
Lemma write_blocks_commits p bs w sr ch bs0 :
  w_sigint w = None ->
  w_disk w !! p = Some (FWav sr ch bs0) ->
  (write_blocks p bs w).1 = Ok tt /\
  w_disk (write_blocks p bs w).2 !! p = Some (FWav sr ch (bs0 ++ bs)) /\
  (write_blocks p bs w).2 = set_disk (w_disk (write_blocks p bs w).2) w.
Proof.
  revert w bs0. induction bs as [|b bs IH]; intros w bs0 Hs Hd; simpl.
  - rewrite app_nil_r. split_and!; try done. by destruct w.
  - unfold sf_write, bind, checkpoint, modify. repeat (simpl; rewrite ?Hs, ?Hd).
    set (w1 := set_disk _ w).
    destruct (IH w1 (bs0 ++ [b])) as (E & D & F);
      [done | unfold w1; simpl; by rewrite lookup_insert_eq |].
    destruct (write_blocks p bs w1) as [r w2]. simpl in *. subst r.
    split_and!; [done | by rewrite D, <- app_assoc | by rewrite F at 1].
Qed.

(** What an undisturbed session with working devices leaves behind. *)
Lemma undisturbed_session (c : Capture) (mid : list Msg) (w : World) :
  channel_map_mismatch (num_channels c) (channel_map c) = false ->
  w_disk w !! input_midi_filepath c = Some (FMidi mid) ->
  w_sigint w = None ->
  h_port_fails (w_host w) = false ->
  h_soundfile_fails (w_host w) = false ->
  h_stream_fails (w_host w) = false ->
  h_close_fails (w_host w) = false ->
  (capture_performance c w).1 = Ok tt /\
  w_disk (capture_performance c w).2 !! output_audio_filepath c
  = Some (FWav (sample_rate c) (num_channels c)
               (w_buffer (capture_performance c w).2)) /\
  (w_stream_open (capture_performance c w).2 = false /\
   w_port_open (capture_performance c w).2 = false /\
   w_file_open (capture_performance c w).2 = false) /\
  (calm (w_env w) ->
   (w_now w + foldl (fun t m => (t + msg_time m)%Q) 0 mid + 3
    <= w_now (capture_performance c w).2)%Q).
Proof.
  intros Hmis Hd Hs Hp Hf Hi Hc.
  assert (forall env, calm env -> calm (tail env) /\ (0 <= next_lag env)%Q) as Hstep.
  { intros env H. split; [by apply calm_tail | by apply calm_next_lag]. }
  unfold capture_performance. rewrite Hmis.
  unfold recording, teardown, try_except, with_exit, MidiFile, open_output,
    SoundFile, InputStream, sf_close, port_close, stream_close, clock, sleep,
    bind, checkpoint, elapse, log, modify, get, ret, raise.
  repeat (simpl; rewrite ?Hs, ?Hd, ?Hp, ?Hf, ?Hi).
  match goal with
  | |- context [play ?s ?i mid ?W] =>
      destruct (play_ready (dispatched (w_trace W)) s i mid W) as [E1 R1];
        [by split_and!|];
      pose proof (play_due (dispatched (w_trace W)) s i mid W
                    ltac:(by split_and!)) as Hdue;
      pose proof (unchanged_play w_disk s i mid
                    ltac:(done) ltac:(done) ltac:(done) W) as Udisk;
      pose proof (unchanged_play w_host s i mid
                    ltac:(done) ltac:(done) ltac:(done) W) as Uhost;
      pose proof (unchanged_play
                    (fun w => (w_stream_open w, w_port_open w, w_file_open w))
                    s i mid ltac:(done) ltac:(done) ltac:(done) W) as Uhandles;
      destruct (play s i mid W) as [r1 w1]
  end.
  unfold unchanged in *. simpl in *. subst r1.
  destruct R1 as (Hs1 & _). injection Uhandles as Hso Hpo Hfo.
  repeat (simpl; rewrite ?Hs1, ?Hso, ?Hpo, ?Hfo).
  match goal with
  | |- context [write_blocks ?p ?bs ?W] =>
      destruct (write_blocks_commits p bs W (sample_rate c) (num_channels c) [])
        as (E2 & D2 & F2);
        [done | simpl; by rewrite Udisk, lookup_insert_eq |];
      pose proof (f_equal w_host F2) as Fhost;
      pose proof (f_equal w_buffer F2) as Fbuf;
      pose proof (f_equal w_now F2) as Fnow;
      pose proof (f_equal w_file_open F2) as Ffile;
      pose proof (f_equal w_port_open F2) as Fport;
      destruct (write_blocks p bs W) as [r2 w2]
  end.
  simpl in *. subst r2.
  repeat (simpl; rewrite ?Ffile, ?Fport, ?Fhost, ?Uhost, ?Hc, ?Hfo, ?Hpo).
  rewrite D2, Fbuf, Fnow. simpl. split_and!; try done.
  intros Hcalm.
  destruct (Hstep _ Hcalm) as [Hc1 L0]. destruct (Hstep _ Hc1) as [Hc2 L1].
  destruct (Hstep _ Hc2) as [Hc3 L2]. destruct (Hstep _ Hc3) as [Hc4 L3].
  destruct (Hstep _ Hc4) as [Hc5 L4].
  destruct Hdue as [Hc6 Hdue]; [done | lra |].
  pose proof (calm_next_lag _ Hc6). lra.
Qed.



(** X4.  On a clock that never goes back, an undisturbed session lasts at
    least the sum of the deltas of all its events plus the three seconds of
    the trailing sleep. *)
Theorem undisturbed_session_lasts (c : Capture) (mid : list Msg) (w : World) :
  channel_map_mismatch (num_channels c) (channel_map c) = false ->
  w_disk w !! input_midi_filepath c = Some (FMidi mid) ->
  w_sigint w = None ->
  h_port_fails (w_host w) = false ->
  h_soundfile_fails (w_host w) = false ->
  h_stream_fails (w_host w) = false ->
  h_close_fails (w_host w) = false ->
  calm (w_env w) ->
  (w_now w + foldl (fun t m => (t + msg_time m)%Q) 0 mid + 3
   <= w_now (capture_performance c w).2)%Q.
Proof.
  intros Hmis Hd Hs Hp Hf Hi Hc Hcalm.
  destruct (undisturbed_session c mid w) as (_ & _ & _ & H); try done.
  by apply H.
Qed.

Lemma undisturbed_session_lasts_witness :
  (w_now demo_world + foldl (fun t m => (t + msg_time m)%Q) 0
                            [note_on; set_tempo; note_off] + 3
   <= w_now (capture_performance demo_capture demo_world).2)%Q.
Proof.
  apply (undisturbed_session_lasts demo_capture [note_on; set_tempo; note_off]
           demo_world); try reflexivity.
  unfold calm. simpl. repeat constructor; simpl; lra.
Defined.

(** ** What a session never does *)



(** X6.  However a session ends, it touches no file but its destination,
    and it leaves the host as it was. *)
Theorem session_touches_only_its_destination (c : Capture) (w : World)
    (q : Path) :
  q <> output_audio_filepath c ->
  w_disk (capture_performance c w).2 !! q = w_disk w !! q /\
  w_host (capture_performance c w).2 = w_host w.
Proof.
  intros Hq. destruct (steady_capture_performance c w) as (Hh & _ & Hd).
  split; [by apply Hd | done].
Qed.

Lemma session_touches_only_its_destination_witness :
  w_disk (capture_performance demo_capture demo_world).2 !! ["in"; "a.mid"]
  = Some (FMidi [note_on; set_tempo; note_off]).
Proof.
  destruct (session_touches_only_its_destination demo_capture demo_world
              ["in"; "a.mid"]) as [H _]; [done|].
  rewrite H. reflexivity.
Defined.

(** ** Handles *)

Ltac handles_tac :=
  intros w; intros;
  unfold all_closed in *;
  unfold_effects; unfold bind, checkpoint, elapse, log, modify, get, ret, raise;
  let Hs := fresh "Hs" in
  destruct (w_sigint w) as [[|?]|] eqn:Hs; repeat (simpl; rewrite ?Hs);
  repeat match goal with
         | |- context [if ?b then _ else _] =>
             lazymatch type of b with bool => idtac end;
             let Hb := fresh "Hb" in
             destruct b eqn:Hb; repeat (simpl; rewrite ?Hs, ?Hb)
         end;
  intuition congruence.

Lemma handles_open_output name :
  hoare all_closed (open_output name)
    (fun r w => match r with
                | Ok _ => w_stream_open w = false /\ w_file_open w = false
                | Err _ => all_closed w
                end).
Proof. handles_tac. Qed.

Lemma handles_SoundFile p sr ch :
  hoare (fun w => w_stream_open w = false /\ w_file_open w = false)
    (SoundFile p sr ch)
    (fun r w => match r with
                | Ok _ => w_stream_open w = false
                | Err _ => w_stream_open w = false /\ w_file_open w = false
                end).
Proof. handles_tac. Qed.

Lemma handles_InputStream d sr ch cm :
  hoare (fun w => w_stream_open w = false) (InputStream d sr ch cm)
    (fun r w => match r with Ok _ => True | Err _ => w_stream_open w = false end).
Proof. handles_tac. Qed.

Lemma handles_stream_close :
  hoare (fun _ => True) stream_close (fun _ w => w_stream_open w = false).
Proof. by intros w _. Qed.

Lemma handles_sf_close :
  hoare (fun w => w_stream_open w = false) sf_close
    (fun _ w => w_stream_open w = false /\ w_file_open w = false).
Proof.
  intros w Hw. unfold sf_close, bind, modify, get, ret, raise.
  destruct (w_file_open w) eqn:Ho; simpl; [|done].
  by destruct (h_close_fails (w_host w)).
Qed.

Lemma handles_port_close :
  hoare (fun w => w_stream_open w = false /\ w_file_open w = false) port_close
        (fun _ => all_closed).
Proof.
  intros w [Hs Hf]. unfold port_close, all_closed, bind, log, modify, get, ret.
  by destruct (w_port_open w) eqn:Ho.
Qed.

Lemma handles_teardown c :
  hoare (fun w => w_stream_open w = false) (teardown c)
        (fun _ w => w_stream_open w = false).
Proof.
  intros w Hw.
  assert (preserves (unchanged w_stream_open) (teardown c)) as H
    by (unfold teardown; preserve_with unchanged_atom).
  by rewrite (H w).
Qed.

Lemma handles_session c mid settings :
  hoare all_closed
    (open_output (output_port_name c) ;;
     with_exit port_close
       (SoundFile (output_audio_filepath c) (sample_rate c) (num_channels c) ;;
        with_exit sf_close
          (try_except (recording c mid settings) is_KeyboardInterrupt
                      (teardown c))))
    (fun _ => all_closed).
Proof.
  eapply hoare_bind; [apply handles_open_output | intros ?].
  eapply hoare_with_exit; [|apply handles_port_close].
  eapply hoare_bind; [apply handles_SoundFile | intros ?].
  eapply hoare_with_exit; [|apply handles_sf_close].
  eapply hoare_try_except; [|apply handles_teardown|done].
  unfold recording.
  eapply hoare_bind; [apply handles_InputStream | intros ?].
  eapply hoare_with_exit; [|apply handles_stream_close].
  by intros w _.
Qed.

(** X7.  A session started with no handle open ends with no handle open,
    whether it returns, fails on a device, or is interrupted: the input
    stream, the sound file and the MIDI port it opened are all closed. *)
Theorem session_releases_its_handles (c : Capture) (w : World) :
  all_closed w -> all_closed (capture_performance c w).2.
Proof.
  intros Hw. unfold capture_performance.
  unfold bind at 1. simpl.
  destruct (channel_map_mismatch _ _); [done|].
  assert (preserves (unchanged (fun w => (w_stream_open w, w_port_open w,
                                          w_file_open w)))
            (try_except (evs <- MidiFile (input_midi_filepath c) ; ret (Some evs))
                        is_Exception (ret None))) as Hparse
    by preserve_with unchanged_atom.
  specialize (Hparse (set_buffer [] w)). unfold unchanged in Hparse.
  unfold bind at 1.
  destruct (try_except _ is_Exception _ (set_buffer [] w)) as [[[mid|]|e] w1];
    simpl in *; injection Hparse as H1 H2 H3;
    try (unfold all_closed in *; simpl; intuition congruence).
  apply handles_session. unfold all_closed in *. intuition congruence.
Qed.

Lemma session_releases_its_handles_witness :
  all_closed (capture_performance demo_capture
                (world0 quiet_host demo_disk demo_env (Some 6%nat))).2.
Proof.
  apply (session_releases_its_handles demo_capture
           (world0 quiet_host demo_disk demo_env (Some 6%nat))).
  by split_and!.
Defined.

(** ** Exit statuses *)

Lemma signals_still {A} (m : M A) :
  (forall w, w_sigint (m w).2 = w_sigint w /\
             (m w).1 <> Err KeyboardInterrupt /\
             forall n, (m w).1 <> Err (SystemExit n)) ->
  signals m.
Proof.
  intros Hm w. destruct (Hm w) as (Hs & Hk & Hx). split_and!.
  - intros n E. by destruct (Hx n).
  - done.
  - by rewrite Hs.
Qed.

Lemma signals_checkpoint : signals checkpoint.
Proof.
  intros w. unfold checkpoint.
  destruct (w_sigint w) as [[|k]|] eqn:Hs; simpl; rewrite ?Hs; split_and!;
    try done; eauto.
Qed.

Lemma signals_bind {A B} (m : M A) (f : A -> M B) :
  signals m -> (forall a, signals (f a)) -> signals (bind m f).
Proof.
  intros Hm Hf w. destruct (Hm w) as (Hx & Hk & Hn). unfold bind.
  destruct (m w) as [[a|e] w1]; simpl in *.
  - destruct (Hf a w1) as (Hx' & Hk' & Hn').
    assert (is_Some (w_sigint w1) -> is_Some (w_sigint w)) as Hback.
    { intros [k Hs1]. destruct (w_sigint w); [done|].
      rewrite Hn in Hs1; done. }
    split_and!.
    + intros n E. destruct (Hx' n E) as (? & ? & ?). auto.
    + intros E. destruct (Hk' E) as (? & ?). auto.
    + auto.
  - split_and!; [| |done].
    + intros n [= ->]. by apply Hx.
    + intros [= ->]. by apply Hk.
Qed.

Lemma signals_with_exit {A} (exit : M unit) (body : M A) :
  deaf exit -> (forall w n, (exit w).1 <> Err (SystemExit n)) ->
  signals body -> signals (with_exit exit body).
Proof.
  intros He Hne Hb w. destruct (Hb w) as (Hx & Hk & Hn). unfold with_exit.
  destruct (body w) as [r w1]. destruct (He w1) as (Hs & Hk' & _).
  specialize (Hne w1).
  destruct (exit w1) as [[[]|e] w2]; simpl in *; rewrite Hs; split_and!;
    try done.
  - intros n [= ->]. by destruct (Hne n).
  - by intros [= ->].
Qed.

Lemma signals_try_except {A} (body handler : M A) catches :
  signals body -> signals handler -> signals (try_except body catches handler).
Proof.
  intros Hb Hh w. destruct (Hb w) as (Hx & Hk & Hn). unfold try_except.
  destruct (body w) as [[a|e] w1]; simpl in *; [done|].
  destruct (catches e); [|done].
  destruct (Hh w1) as (Hx' & Hk' & Hn').
  assert (is_Some (w_sigint w1) -> is_Some (w_sigint w)) as Hback.
  { intros [k Hs1]. destruct (w_sigint w); [done|]. rewrite Hn in Hs1; done. }
  split_and!.
  - intros n E. destruct (Hx' n E) as (? & ? & ?). auto.
  - intros E. destruct (Hk' E) as (? & ?). auto.
  - auto.
Qed.

(** [try: body  except KeyboardInterrupt: handler], the handler ending in
    [sys.exit(130)]. *)
Lemma signals_guard {A} (body handler : M A) :
  signals body -> deaf handler ->
  signals (try_except body is_KeyboardInterrupt handler).
Proof.
  intros Hb Hh w. destruct (Hb w) as (Hx & Hk & Hn). unfold try_except.
  destruct (body w) as [[a|e] w1]; simpl in *; [done|].
  destruct (is_KeyboardInterrupt e) eqn:He.
  - destruct e; try done. destruct (Hk eq_refl) as [Hsome Hnone].
    destruct (Hh w1) as (Hs & Hk' & Hx').
    destruct (handler w1) as [r w2]. simpl in *. rewrite Hs. split_and!.
    + intros n E. specialize (Hx' n E). done.
    + done.
    + done.
  - by split_and!.
Qed.

Ltac signals_step :=
  lazymatch goal with
  | |- signals checkpoint => apply signals_checkpoint
  | |- signals (bind _ _) => apply signals_bind; [|intros ?]
  | |- signals (if ?b then _ else _) => destruct b
  | |- signals (match ?x with _ => _ end) => destruct x
  | |- signals (ret _) => by apply signals_still
  | |- signals (raise _) => by apply signals_still
  | |- signals (get _) => by apply signals_still
  | |- signals (log _) => by apply signals_still
  | |- signals (elapse _) => by apply signals_still
  | |- signals (modify _) =>
      apply signals_still; intros ?; simpl; repeat case_match; done
  end.

Ltac signals_with tac :=
  repeat (first [ signals_step | tac | progress unfold_effects
                | progress unfold cooldown_rest ]).

Lemma deaf_bind {A B} (m : M A) (f : A -> M B) :
  deaf m -> (forall a, deaf (f a)) -> deaf (bind m f).
Proof.
  intros Hm Hf w. destruct (Hm w) as (Hs & Hk & Hx). unfold bind.
  destruct (m w) as [[a|e] w1]; simpl in *.
  - destruct (Hf a w1) as (Hs' & Hk' & Hx').
    split_and!; [by rewrite Hs', Hs | done | done].
  - split_and!; [done | intros [= ->]; by apply Hk
                | intros n [= ->]; by apply (Hx n)].
Qed.

Ltac deaf_step :=
  lazymatch goal with
  | |- deaf (bind _ _) => apply deaf_bind; [|intros ?]
  | |- deaf (if ?b then _ else _) => destruct b
  | |- deaf (match ?x with _ => _ end) => destruct x
  | |- deaf (sys_exit 130) => intros ?; split_and!; [done | done | by intros ? [= <-]]
  | |- deaf _ => by intros ?
  end.

Ltac deaf_tac :=
  repeat (first [ deaf_step | progress unfold teardown
                | progress unfold_effects ]).

Lemma deaf_stream_close : deaf stream_close.
Proof. deaf_tac. Qed.

Lemma deaf_sf_close : deaf sf_close.
Proof. deaf_tac. Qed.

Lemma deaf_port_close : deaf port_close.
Proof. deaf_tac. Qed.

Lemma deaf_teardown c : deaf (teardown c).
Proof. deaf_tac. Qed.

Lemma closing_never_exits (w : World) (n : Z) :
  (stream_close w).1 <> Err (SystemExit n) /\
  (sf_close w).1 <> Err (SystemExit n) /\
  (port_close w).1 <> Err (SystemExit n).
Proof.
  unfold stream_close, sf_close, port_close, bind, log, modify, get, ret, raise.
  simpl.
  destruct (w_file_open w), (w_port_open w); simpl;
    destruct (h_close_fails (w_host w)); done.
Qed.

Lemma signals_play start_time input_time mid :
  signals (play start_time input_time mid).
Proof.
  revert input_time. induction mid as [|msg mid IH]; intros input_time; simpl.
  - signals_step.
  - signals_step; [|apply IH]. signals_with fail.
Qed.

Lemma signals_write_blocks p bs : signals (write_blocks p bs).
Proof. induction bs as [|b bs IH]; simpl; signals_with ltac:(exact IH). Qed.

Ltac signals_session :=
  first [ apply signals_play
        | apply signals_write_blocks
        | apply signals_guard; [|apply deaf_teardown]
        | apply signals_try_except
        | apply signals_with_exit;
          [ first [ apply deaf_stream_close | apply deaf_sf_close
                  | apply deaf_port_close ]
          | intros ? ?; apply closing_never_exits | ] ].

Lemma signals_capture_performance c : signals (capture_performance c).
Proof. unfold capture_performance, recording. signals_with signals_session. Qed.

Lemma signals_run_loop a th dur timer paths :
  signals (run_loop a th dur timer paths).
Proof.
  revert timer. induction paths as [|p paths IH]; intros timer; simpl.
  - signals_step.
  - signals_with ltac:(first [apply IH | apply signals_capture_performance]).
Qed.

(** X8.  A session ends in [SystemExit] only with status 130, and only
    when a Ctrl+C was pending and got delivered during it. *)
Theorem session_exits_only_when_interrupted (c : Capture) (w : World) (n : Z) :
  (capture_performance c w).1 = Err (SystemExit n) ->
  n = 130%Z /\ is_Some (w_sigint w) /\
  w_sigint (capture_performance c w).2 = None.
Proof.
  intros E. destruct (signals_capture_performance c w) as (Hx & _). by apply Hx.
Qed.

Lemma session_exits_only_when_interrupted_witness :
  let w := world0 quiet_host demo_disk demo_env (Some 6%nat) in
  130%Z = 130%Z /\ is_Some (w_sigint w) /\
  w_sigint (capture_performance demo_capture w).2 = None.
Proof.
  apply (session_exits_only_when_interrupted demo_capture
           (world0 quiet_host demo_disk demo_env (Some 6%nat)) 130).
  vm_compute. reflexivity.
Defined.

(** X9.  A batch ends in [SystemExit] in two ways only: with status 1,
    the world untouched, because its configuration is refused; or with
    status 130, because a pending Ctrl+C was delivered. *)
Theorem batch_exit_statuses (a : Batch.Args) (w : World) (n : Z) :
  (run a w).1 = Err (SystemExit n) ->
  (n = 1%Z /\ refused a /\ (run a w).2 = w) \/
  (n = 130%Z /\ is_Some (w_sigint w) /\ w_sigint (run a w).2 = None).
Proof.
  unfold run, refused.
  destruct (channel_map_mismatch _ _) eqn:Hmis.
  { intros [= <-]. left. auto. }
  destruct (Batch.cooldown_parameters a) as [[playtime_min sleep_min]|] eqn:Hcp.
  2: { intros [= <-]. left. auto. }
  destruct (sleep_min =? 0)%Z eqn:Hz; [done|]. apply Z.eqb_neq in Hz.
  destruct (ratio_exceeds _ _) eqn:Hr.
  { intros [= <-]. left. split_and!; try done. right. right.
    exists playtime_min, sleep_min. split_and!; try done.
    unfold ratio_exceeds in Hr. apply negb_true_iff in Hr.
    by apply Qle_bool_false. }
  intros E. right.
  match type of E with
  | (?m w).1 = _ => assert (signals m) as Hm
  end.
  { unfold enable_realtime.
    signals_with ltac:(apply signals_run_loop). }
  destruct (Hm w) as (Hx & _). by apply Hx.
Qed.

Lemma batch_exit_statuses_witness :
  let a := demo_batch 2 None (Some (16, 3)%Z) in
  (1%Z = 1%Z /\ refused a /\ (run a demo_world).2 = demo_world) \/
  (1%Z = 130%Z /\ is_Some (w_sigint demo_world) /\
   w_sigint (run a demo_world).2 = None).
Proof.
  apply (batch_exit_statuses (demo_batch 2 None (Some (16, 3)%Z)) demo_world 1).
  reflexivity.
Defined.

(** * Destinations *)

Lemma relative_to_Some p root rel :
  relative_to p root = Some rel <-> p = root ++ rel.
Proof.
  revert p. induction root as [|r root IH]; intros p.
  - destruct p; simpl; split; congruence.
  - destruct p as [|x p]; simpl; [by split|].
    destruct (String.eqb r x) eqn:E.
    + apply String.eqb_eq in E as ->. rewrite IH. split; congruence.
    + apply String.eqb_neq in E. split; [done | congruence].
Qed.

Lemma with_name_Some p name named :
  with_name p name = Some named ->
  exists dirs old, p = dirs ++ [old] /\ named = dirs ++ [name].
Proof.
  unfold with_name. destruct (reverse p) as [|old before] eqn:E; [done|].
  destruct (_ || _); [done|]. intros [= <-].
  exists (reverse before), old. split; [|done].
  by rewrite <- (reverse_involutive p), E, reverse_cons.
Qed.

Lemma with_suffix_Some p suffix r :
  with_suffix p suffix = Some r ->
  exists dirs old base, p = dirs ++ [old] /\ r = dirs ++ [(base ++ suffix)%string].
Proof.
  unfold with_suffix. destruct (reverse p) as [|old before] eqn:E; [done|].
  intros [= <-].
  assert (p = reverse before ++ [old]) as ->
    by (by rewrite <- (reverse_involutive p), E, reverse_cons).
  destruct (suffix_start old) as [i|]; eauto.
Qed.

(** X10.  Whenever a destination is derived, it mirrors the source: the
    source lies under the MIDI root, the destination lies under the audio
    root in the same sub-directories, and its file name ends in [.wav]. *)
Theorem output_path_mirrors_the_source (midi_root audio_root : Path)
    (output_suffix : string) (src dst : Path) :
  output_path midi_root audio_root output_suffix src = Some dst ->
  exists dirs name base,
    src = midi_root ++ dirs ++ [name] /\
    dst = audio_root ++ dirs ++ [(base ++ ".wav")%string].
Proof.
  unfold output_path. intros H.
  destruct (relative_to src midi_root) as [rel|] eqn:Hrel; [|done].
  apply relative_to_Some in Hrel as ->. simpl in H.
  destruct (last rel) as [name|] eqn:Hlast; [|done]. simpl in H.
  destruct (with_name rel _) as [named|] eqn:Hn; [|done]. simpl in H.
  destruct (with_suffix named ".wav") as [r|] eqn:Hw; [|done]. simpl in H.
  injection H as <-.
  apply with_name_Some in Hn as (dirs & old & -> & ->).
  apply with_suffix_Some in Hw as (dirs' & old' & base & Heq & ->).
  apply app_inj_tail in Heq as [<- <-].
  rewrite last_snoc in Hlast. injection Hlast as <-.
  by exists dirs, old, base.
Qed.

Lemma output_path_mirrors_the_source_witness :
  exists dirs name base,
    ["in"; "bach"; "a.b.mid"] = ["in"] ++ dirs ++ [name] /\
    ["out"; "bach"; "a.wav"] = ["out"] ++ dirs ++ [(base ++ ".wav")%string].
Proof.
  apply (output_path_mirrors_the_source ["in"] ["out"] "_x"
           ["in"; "bach"; "a.b.mid"] ["out"; "bach"; "a.wav"]).
  reflexivity.
Defined.

Lemma string_length_app (s t : string) :
  String.length (s ++ t) = String.length s + String.length t.
Proof. induction s as [|c s IH]; simpl; [done | by rewrite IH]. Qed.

Lemma substring_prefix (s t : string) :
  substring 0 (String.length s) (s ++ t) = s.
Proof.
  induction s as [|c s IH]; simpl; [by destruct t | by rewrite IH].
Qed.

(** The last dot of [n ++ "." ++ ext] is the one before [ext] when [ext]
    has none. *)
Lemma rfind_dot_extension (n ext : string) :
  rfind_dot ext = None ->
  rfind_dot (n ++ String "." ext) = Some (String.length n).
Proof.
  intros Hext. induction n as [|c n IH]; simpl.
  - by rewrite Hext.
  - by rewrite IH.
Qed.

Lemma stem_extension (n ext : string) :
  n <> ""%string -> ext <> ""%string -> rfind_dot ext = None ->
  stem (n ++ String "." ext) = n.
Proof.
  intros Hn He Hext. unfold stem, suffix_start.
  rewrite rfind_dot_extension by done.
  rewrite string_length_app. simpl.
  assert (0 < String.length n) by (destruct n; [done | simpl; lia]).
  assert (0 < String.length ext) by (destruct ext; [done | simpl; lia]).
  assert ((0 <? String.length n) = true) as -> by (apply Nat.ltb_lt; lia).
  assert ((String.length n <? String.length n + S (String.length ext) - 1) = true)
    as -> by (apply Nat.ltb_lt; lia).
  simpl. apply substring_prefix.
Qed.

(** X11.  For a source [<name>.<ext>] whose extension has no dot (such as
    [mid] or [MID]), with a name and an output suffix that hold no dot and
    no separator, the destination is [<name><suffix>.wav] in the mirrored
    directory. *)
Theorem output_path_of_plain_name (midi_root audio_root dirs : Path)
    (name ext output_suffix : string) :
  name <> ""%string ->
  ext <> ""%string ->
  rfind_dot ext = None ->
  rfind_dot (name ++ output_suffix) = None ->
  has_sep (name ++ output_suffix) = false ->
  output_path midi_root audio_root output_suffix
              (midi_root ++ dirs ++ [(name ++ String "." ext)%string])
  = Some (audio_root ++ dirs ++ [((name ++ output_suffix) ++ ".wav")%string]).
Proof.
  intros Hn He Hext Hdot Hsep. unfold output_path.
  rewrite (proj2 (relative_to_Some _ _ _) eq_refl). simpl.
  rewrite last_snoc. simpl. rewrite stem_extension by done.
  unfold with_name. rewrite reverse_snoc, Hsep.
  assert (String.eqb (name ++ output_suffix) "" = false) as ->.
  { apply String.eqb_neq. by destruct name. }
  assert (String.eqb (name ++ output_suffix) "." = false) as ->.
  { apply String.eqb_neq. intros E. by rewrite E in Hdot. }
  simpl. rewrite reverse_involutive.
  unfold with_suffix. rewrite reverse_snoc. unfold suffix_start.
  rewrite Hdot, reverse_involutive. done.
Qed.

Lemma output_path_of_plain_name_witness :
  output_path ["in"] ["out"] "_take2" ["in"; "bach"; "prelude.MID"]
  = Some ["out"; "bach"; "prelude_take2.wav"].
Proof.
  apply (output_path_of_plain_name ["in"] ["out"] ["bach"] "prelude" "MID"
           "_take2"); done.
Defined.

Lemma string_app_assoc (s t u : string) :
  ((s ++ t) ++ u = s ++ (t ++ u))%string.
Proof.
  induction s as [|c s IH]; [done | exact (f_equal (String c) IH)].
Qed.

(** X12.  A dot inside the stem costs the tail of the name: for a source
    [<name>.<tail>.<ext>], [with_suffix] takes [.<tail><suffix>] for the
    suffix to replace, and the destination is [<name>.wav] whatever the tail
    and the output suffix are.  Sources that differ in the tail only share
    their destination. *)
Theorem output_path_drops_dotted_tail (midi_root audio_root dirs : Path)
    (name tail ext output_suffix : string) :
  name <> ""%string ->
  ext <> ""%string ->
  rfind_dot ext = None ->
  (tail ++ output_suffix)%string <> ""%string ->
  rfind_dot (tail ++ output_suffix) = None ->
  has_sep ((name ++ String "." tail) ++ output_suffix) = false ->
  output_path midi_root audio_root output_suffix
    (midi_root ++ dirs ++ [((name ++ String "." tail) ++ String "." ext)%string])
  = Some (audio_root ++ dirs ++ [(name ++ ".wav")%string]).
Proof.
  intros Hn He Hext Hts Hdot Hsep. unfold output_path.
  rewrite (proj2 (relative_to_Some _ _ _) eq_refl). simpl.
  rewrite last_snoc. simpl.
  rewrite stem_extension; [|by destruct name|done|done].
  assert (0 < String.length name) by (destruct name; [done | simpl; lia]).
  assert (0 < String.length (tail ++ output_suffix))
    by (destruct (tail ++ output_suffix)%string; [done | simpl; lia]).
  unfold with_name. rewrite reverse_snoc, Hsep.
  assert (String.eqb ((name ++ String "." tail) ++ output_suffix) "" = false) as ->.
  { apply String.eqb_neq. by destruct name. }
  assert (String.eqb ((name ++ String "." tail) ++ output_suffix) "." = false) as ->.
  { apply String.eqb_neq. destruct name as [|c [|c' name]]; done. }
  simpl. rewrite reverse_involutive.
  unfold with_suffix. rewrite reverse_snoc, reverse_involutive.
  unfold suffix_start.
  rewrite string_app_assoc. change (String "." tail ++ output_suffix)%string
    with (String "." (tail ++ output_suffix)).
  rewrite rfind_dot_extension by done.
  rewrite string_length_app. simpl.
  assert ((0 <? String.length name) = true) as -> by (apply Nat.ltb_lt; lia).
  assert ((String.length name
           <? String.length name + S (String.length (tail ++ output_suffix)) - 1)
          = true) as -> by (apply Nat.ltb_lt; lia).
  simpl. by rewrite substring_prefix.
Qed.

Lemma output_path_drops_dotted_tail_witness :
  output_path ["in"] ["out"] "_take2" ["in"; "sonata.op2.mid"]
  = Some ["out"; "sonata.wav"] /\
  output_path ["in"] ["out"] "_take2" ["in"; "sonata.op27.mid"]
  = Some ["out"; "sonata.wav"].
Proof.
  split.
  - apply (output_path_drops_dotted_tail ["in"] ["out"] [] "sonata" "op2" "mid"
             "_take2"); done.
  - apply (output_path_drops_dotted_tail ["in"] ["out"] [] "sonata" "op27" "mid"
             "_take2"); done.
Defined.

(** * The order of a batch *)

Lemma insert_by_perm key p l : insert_by key p l ≡ₚ p :: l.
Proof.
  induction l as [|q l IH]; simpl; [done|].
  destruct (_ <=? _)%Z; [done|]. rewrite IH. apply Permutation_swap.
Qed.

Lemma sorted_by_perm key l : sorted_by key l ≡ₚ l.
Proof.
  unfold sorted_by. induction l as [|p l IH]; simpl; [done|].
  by rewrite insert_by_perm, IH.
Qed.

Lemma insert_by_ascending key p l :
  ascending key l -> ascending key (insert_by key p l).
Proof.
  induction l as [|q l IH]; simpl; [done|]. intros [Hq Hl].
  destruct (key p <=? key q)%Z eqn:E; simpl.
  - apply Z.leb_le in E. split; [|done]. constructor; [done|].
    eapply Forall_impl; [exact Hq|]. simpl. intros. lia.
  - apply Z.leb_gt in E. split; [|by apply IH].
    rewrite insert_by_perm. constructor; [lia | done].
Qed.

Lemma sorted_by_ascending key l : ascending key (sorted_by key l).
Proof.
  unfold sorted_by. induction l as [|p l IH]; simpl; [done|].
  by apply insert_by_ascending.
Qed.

Lemma ascending_sublist key l k :
  l `sublist_of` k -> ascending key k -> ascending key l.
Proof.
  induction 1 as [|x l k Hsub IH|x l k Hsub IH]; simpl; [done| |].
  - intros [Hf Ha]. split; [|by apply IH].
    rewrite Forall_forall in *. intros q Hq. apply Hf.
    by eapply elem_of_sublist.
  - intros [_ Ha]. by apply IH.
Qed.

Lemma between_sessions {A} (m : M A) :
  preserves (emits between_event) m ->
  forall w, sessions (w_trace (m w).2) = sessions (w_trace w).
Proof. intros He w. by apply (sessions_emits between_event); [|apply He]. Qed.

Lemma launched_none a paths w w' :
  sessions (w_trace w') = sessions (w_trace w) -> launched a paths w w'.
Proof.
  intros E. exists []. rewrite app_nil_r. split_and!; [done| |done].
  apply sublist_nil_l.
Qed.

Lemma launched_skip a p paths w w1 w' :
  sessions (w_trace w1) = sessions (w_trace w) ->
  launched a paths w1 w' -> launched a (p :: paths) w w'.
Proof.
  intros E (started & Es & Hsub & Hd). exists started.
  rewrite Es, E. split_and!; [done| |done]. by apply sublist_cons.
Qed.

Lemma launched_start a p out paths w w1 w' :
  sessions (w_trace w1) = sessions (w_trace w) ++ [(p, out)] ->
  derived a (p, out) ->
  launched a paths w1 w' -> launched a (p :: paths) w w'.
Proof.
  intros E Hp (started & Es & Hsub & Hd). exists ((p, out) :: started).
  rewrite Es, E, <- app_assoc. split_and!; [done| |by constructor].
  simpl. by apply sublist_skip.
Qed.

Lemma launched_run_loop a th dur paths timer w :
  launched a paths w (run_loop a th dur timer paths w).2.
Proof.
  revert timer w. induction paths as [|p paths IH]; intros timer w; simpl.
  { by apply launched_none. }
  unfold bind at 1.
  pose proof (between_sessions clock ltac:(emits_tac) w) as S1.
  destruct (clock w) as [[now|e] w1]; simpl in *; [|by apply launched_none].
  unfold bind at 1.
  set (rest := if negb (Qle_bool (now - timer) (inject_Z th))
               then cooldown_rest dur else ret timer).
  assert (sessions (w_trace (rest w1).2) = sessions (w_trace w1)) as S2.
  { unfold rest. destruct (negb _); [|done].
    apply between_sessions. unfold cooldown_rest. emits_tac. }
  destruct (rest w1) as [[timer'|e] w2]; simpl in *;
    [|apply launched_none; congruence].
  destruct (output_path _ _ _ p) as [out|] eqn:Hout;
    [|apply launched_none; simpl; congruence].
  unfold bind at 1. simpl.
  destruct (bool_decide (is_Some (w_disk w2 !! out))).
  { apply (launched_skip a p paths w w2); [congruence | apply IH]. }
  unfold bind at 1, log, modify. simpl.
  set (w3 := set_trace (w_trace w2 ++ [EvSession p out]) w2).
  assert (sessions (w_trace w3) = sessions (w_trace w) ++ [(p, out)]) as S3.
  { unfold w3, sessions in *. simpl. rewrite omap_app. simpl. congruence. }
  pose proof (sessions_emits session_event w3 _ ltac:(done)
                (emits_capture_performance (session_of a p out) w3)) as S4.
  unfold bind at 1.
  destruct (capture_performance (session_of a p out) w3) as [[[]|e] w4];
    simpl in *.
  - apply (launched_start a p out paths w w4); [congruence | done | apply IH].
  - apply (launched_start a p out paths w w4); [congruence | done |].
    by apply launched_none.
Qed.

(** X13.  The sessions that a batch starts are for files that the search
    under the MIDI root found, each for the destination derived from its
    source; they are started in ascending order of file size; and no file is
    started twice when the search lists it once. *)
Theorem batch_starts_smallest_first (a : Batch.Args) (w : World) :
  let found := h_rglob (w_host w) (Batch.input_midi_root a) "*.[Mm][Ii][Dd]" in
  exists started,
    sessions (w_trace (run a w).2) = sessions (w_trace w) ++ started /\
    (forall src, src ∈ started.*1 -> src ∈ found) /\
    ascending (h_st_size (w_host w)) started.*1 /\
    (NoDup found -> NoDup started.*1) /\
    Forall (derived a) started.
Proof.
  intros found.
  assert (launched a (sorted_by (h_st_size (w_host w)) found) w (run a w).2)
    as (started & Es & Hsub & Hd).
  { unfold run.
    destruct (channel_map_mismatch _ _); [by apply launched_none|].
    destruct (Batch.cooldown_parameters a) as [[playtime_min sleep_min]|];
      [|by apply launched_none].
    destruct (sleep_min =? 0)%Z; [by apply launched_none|].
    destruct (ratio_exceeds _ _); [by apply launched_none|].
    unfold bind at 1. simpl. fold found.
    assert (sessions (w_trace
              ((if Batch.realtime a then enable_realtime else ret tt) w).2)
            = sessions (w_trace w)) as S1.
    { apply between_sessions. destruct (Batch.realtime a);
        unfold enable_realtime; emits_tac. }
    unfold bind at 1.
    destruct ((if Batch.realtime a then enable_realtime else ret tt) w)
      as [[[]|e] w1]; simpl in *; [|by apply launched_none].
    pose proof (between_sessions clock ltac:(emits_tac) w1) as S2.
    unfold bind at 1.
    destruct (clock w1) as [[now|e] w2]; simpl in *;
      [|apply launched_none; congruence].
    destruct (launched_run_loop a (playtime_min * 60) (sleep_min * 60)
                (sorted_by (h_st_size (w_host w)) found) now w2)
      as (started & Es & Hsub & Hd).
    exists started. split_and!; [congruence | done | done]. }
  exists started. split_and!; [done| | | |done].
  - intros src Hin. rewrite <- (sorted_by_perm (h_st_size (w_host w)) found).
    by eapply elem_of_sublist.
  - eapply ascending_sublist; [exact Hsub | apply sorted_by_ascending].
  - intros Hnd. eapply sublist_NoDup; [|exact Hsub].
    by rewrite sorted_by_perm.
Qed.

(** * The thread policy and the cooldown *)

Lemma emits_weaken (P Q : Event -> bool) w w' :
  (forall e, P e = true -> Q e = true) -> emits P w w' -> emits Q w w'.
Proof.
  intros HPQ (new & E & F). exists new. split; [done|].
  eapply Forall_impl; [exact F | exact HPQ].
Qed.

Lemma emits_run_loop a th dur paths timer :
  preserves (emits running_event) (run_loop a th dur timer paths).
Proof.
  revert timer. induction paths as [|p paths IH]; intros timer; simpl.
  { apply preserves_ret; preorder. }
  unfold cooldown_rest.
  preserve_with ltac:(first
    [ apply IH
    | intros ?; apply (emits_weaken session_event);
        [by intros [] | apply emits_capture_performance]
    | emits_atom ]).
Qed.

(** X14.  The thread policy is requested only when [realtime] is set, and
    then once, after the search for the sources and before any sleep, rest,
    session or device: the request is the first event of the run and there
    is no second one. *)
Theorem realtime_is_requested_first (a : Batch.Args) (w : World) :
  exists new,
    w_trace (run a w).2 = w_trace w ++ new /\
    forall i, new !! i = Some EvRealtime -> i = 0 /\ Batch.realtime a = true.
Proof.
  assert (forall w', emits running_event w w' ->
            exists new, w_trace w' = w_trace w ++ new /\
              forall i, new !! i = Some EvRealtime ->
                        i = 0 /\ Batch.realtime a = true) as Hquiet.
  { intros w' (new & E & F). exists new. split; [done|]. intros i Hi.
    rewrite Forall_lookup in F. by specialize (F i _ Hi). }
  unfold run.
  destruct (channel_map_mismatch _ _); [by apply Hquiet|].
  destruct (Batch.cooldown_parameters a) as [[playtime_min sleep_min]|];
    [|by apply Hquiet].
  destruct (sleep_min =? 0)%Z; [by apply Hquiet|].
  destruct (ratio_exceeds _ _); [by apply Hquiet|].
  unfold bind at 1. simpl.
  set (paths := sorted_by _ _).
  assert (preserves (emits running_event)
            (cooldown_timer <- clock ;
             run_loop a (playtime_min * 60) (sleep_min * 60) cooldown_timer paths))
    as Hrest.
  { preserve_with ltac:(first [apply emits_run_loop | emits_atom]). }
  destruct (Batch.realtime a) eqn:Hrt.
  - unfold enable_realtime. unfold bind at 1 2, log, modify. simpl.
    set (w1 := set_trace (w_trace w ++ [EvRealtime]) w).
    unfold bind at 1, get at 1. simpl.
    destruct (h_realtime_fails (w_host w)); simpl.
    + exists [EvRealtime]. split; [done|]. by intros [|i] Hi.
    + destruct (Hrest w1) as (new & E & F). exists (EvRealtime :: new).
      split.
      { etransitivity; [exact E|]. unfold w1. simpl. by rewrite <- app_assoc. }
      intros [|i] Hi; [done|]. simpl in Hi.
      rewrite Forall_lookup in F. by specialize (F i _ Hi).
  - simpl. apply Hquiet. apply (Hrest w).
Qed.

(** X15.  When the platform refuses the thread policy, a batch that asked
    for it and passed the configuration checks ends in [RuntimeError] right
    there: the request is the only event, no session was started and no
    device was opened. *)
Theorem realtime_failure_stops_the_batch (a : Batch.Args) (w : World)
    (playtime_min sleep_min : Z) :
  Batch.realtime a = true ->
  h_realtime_fails (w_host w) = true ->
  channel_map_mismatch (Batch.num_channels a) (Batch.channel_map a) = false ->
  Batch.cooldown_parameters a = Some (playtime_min, sleep_min) ->
  sleep_min <> 0%Z ->
  (inject_Z playtime_min / inject_Z sleep_min <= 5)%Q ->
  run a w = (Err RuntimeError, set_trace (w_trace w ++ [EvRealtime]) w).
Proof.
  intros Hrt Hfail Hmap Hcp Hs Hratio. unfold run.
  rewrite Hmap, Hcp. apply Z.eqb_neq in Hs as ->.
  unfold ratio_exceeds. apply Qle_bool_iff in Hratio as ->. simpl.
  rewrite Hrt. unfold enable_realtime, bind, log, modify, get. simpl.
  by rewrite Hfail.
Qed.

Lemma realtime_failure_stops_the_batch_witness :
  let w := world0 (refusing_host [["in"; "a.mid"]]) demo_disk demo_env None in
  run realtime_batch w
  = (Err RuntimeError, set_trace (w_trace w ++ [EvRealtime]) w).
Proof.
  apply (realtime_failure_stops_the_batch realtime_batch
           (world0 (refusing_host [["in"; "a.mid"]]) demo_disk demo_env None)
           15 3); try reflexivity; [lia | vm_compute; discriminate].
Defined.

Lemma rested_later dur dst w w' :
  rested dur w -> steady dst w w' ->
  rests (w_trace w') = rests (w_trace w) -> rested dur w'.
Proof.
  intros [Hc Hf] (_ & Hs & _) Hr. destruct (Hs Hc) as [Hc' _].
  unfold rested. by rewrite Hr.
Qed.

Lemma rested_clock dur : hoare (rested dur) clock (fun _ => rested dur).
Proof.
  intros w Hw. apply (rested_later dur [] w); [done| |].
  - assert (preserves (steady []) clock) as H by preserve_with steady_atom.
    apply H.
  - apply (emits_omap _ session_event); [by intros []|].
    assert (preserves (emits session_event) clock) as H by emits_tac. apply H.
Qed.

Lemma rested_rest dur :
  hoare (rested (inject_Z dur)) (cooldown_rest dur)
        (fun _ => rested (inject_Z dur)).
Proof.
  intros w [Hc Hf].
  pose proof (calm_next_lag _ Hc) as L0.
  pose proof (calm_tail _ Hc) as Hc1.
  pose proof (calm_tail _ Hc1) as Hc2.
  unfold cooldown_rest, clock, sleep, bind, checkpoint, elapse, log, modify,
    get, ret, raise.
  destruct (Qle_bool 0 (inject_Z dur)) eqn:Hd;
    destruct (w_sigint w) as [[|[|k]]|] eqn:Hs; repeat (simpl; rewrite ?Hs).
  all: unfold rested, rests in *; simpl; rewrite ?omap_app; simpl.
  all: rewrite ?app_nil_r; split; try done.
  all: apply Forall_app; split; [done|]; repeat constructor; simpl; lra.
Qed.

Lemma run_loop_rested a th dur paths timer :
  hoare (rested (inject_Z dur)) (run_loop a th dur timer paths)
        (fun _ => rested (inject_Z dur)).
Proof.
  revert timer. induction paths as [|p paths IH]; intros timer; simpl.
  { by intros w Hw. }
  eapply hoare_bind_inv with
    (I := rested (inject_Z dur)) (P' := fun _ => rested (inject_Z dur));
    [|done|].
  { intros w Hw. split; [|intros ? _]; by apply rested_clock. }
  intros now.
  eapply hoare_bind_inv with
    (I := rested (inject_Z dur)) (P' := fun _ => rested (inject_Z dur));
    [|done|].
  { intros w Hw. destruct (negb _); [|done].
    split; [|intros ? _]; by apply rested_rest. }
  intros timer'.
  destruct (output_path _ _ _ p) as [out|]; [|by intros w Hw].
  intros w Hw. unfold bind at 1. simpl.
  destruct (bool_decide (is_Some (w_disk w !! out))); [by apply IH|].
  unfold bind, log, modify. simpl.
  set (w1 := set_trace (w_trace w ++ [EvSession p out]) w).
  assert (rested (inject_Z dur) w1) as Hw1.
  { destruct Hw as [Hc Hf]. unfold rested, w1, rests. simpl.
    rewrite omap_app. simpl. by rewrite app_nil_r. }
  pose proof (rested_later _ _ _ _ Hw1
                (steady_capture_performance (session_of a p out) w1)
                (rests_capture_performance _ w1)) as Hw2.
  destruct (capture_performance (session_of a p out) w1) as [[[]|e] w2];
    simpl in *; [by apply IH | done].
Qed.

(** X16.  In a batch started from a world whose environment never turns
    the clock back and whose trace holds no rest yet, every cooldown rest
    lasts the configured [sleep_min] minutes or more. *)
Theorem cooldown_rests_last (a : Batch.Args) (playtime_min sleep_min : Z)
    (w : World) :
  calm (w_env w) ->
  rests (w_trace w) = [] ->
  Batch.cooldown_parameters a = Some (playtime_min, sleep_min) ->
  forall i began ended,
    rests (w_trace (run a w).2) !! i = Some (began, ended) ->
    (began + inject_Z (sleep_min * 60) <= ended)%Q.
Proof.
  intros Hc Hr Hcp.
  assert (rested (inject_Z (sleep_min * 60)) w) as Hw.
  { split; [done|]. by rewrite Hr. }
  assert (rested (inject_Z (sleep_min * 60)) (run a w).2) as [_ Hf].
  { unfold run. rewrite Hcp.
    destruct (channel_map_mismatch _ _); [done|].
    destruct (sleep_min =? 0)%Z; [done|].
    destruct (ratio_exceeds _ _); [done|].
    unfold bind at 1. simpl.
    assert (rested (inject_Z (sleep_min * 60))
              ((if Batch.realtime a then enable_realtime else ret tt) w).2) as H1.
    { destruct (Batch.realtime a); [|done].
      apply (rested_later _ [] w); [done| |].
      - assert (preserves (steady []) enable_realtime) as H
          by preserve_with steady_atom.
        apply H.
      - unfold enable_realtime, bind, log, modify, get, rests. simpl.
        destruct (h_realtime_fails _); simpl; rewrite omap_app; simpl;
          by rewrite app_nil_r. }
    unfold bind at 1.
    destruct ((if Batch.realtime a then enable_realtime else ret tt) w)
      as [[[]|e] w1]; simpl in *; [|done].
    pose proof (rested_clock _ w1 H1) as H2. unfold bind.
    destruct (clock w1) as [[now|e] w2]; simpl in *; [|done].
    by apply run_loop_rested. }
  intros i began ended Hi. rewrite Forall_lookup in Hf.
  by specialize (Hf i _ Hi).
Qed.

Lemma cooldown_rests_last_witness :
  rests (w_trace (run (demo_batch 2 None (Some (1, 1)%Z)) slow_world).2) !! 1
  = Some (1166, 1276)%Q /\
  (1166 + inject_Z (1 * 60) <= 1276)%Q.
Proof.
  split; [vm_compute; reflexivity|].
  assert (calm (w_env slow_world)) as Hc.
  { unfold calm. simpl. repeat constructor; simpl; lra. }
  apply (cooldown_rests_last (demo_batch 2 None (Some (1, 1)%Z)) 1 1
           slow_world Hc eq_refl eq_refl 1%nat 1166%Q 1276%Q).
  vm_compute. reflexivity.
Defined.

Lemma sorted_by_nil key l : sorted_by key l = [] -> l = [].
Proof.
  intros E. apply Permutation_nil. by rewrite <- (sorted_by_perm key l), E.
Qed.

(** X17.  Negative cooldown parameters are not refused when their ratio is
    at most 5: the threshold is then negative, the first file finds the
    rest overdue, and [time.sleep] of a negative duration raises
    [ValueError] before any session.  (No Ctrl+C pending, the clock never
    turned back, the thread policy granted, one file or more found.) *)
Theorem negative_cooldown_crashes (a : Batch.Args) (playtime_min sleep_min : Z)
    (w : World) :
  channel_map_mismatch (Batch.num_channels a) (Batch.channel_map a) = false ->
  Batch.cooldown_parameters a = Some (playtime_min, sleep_min) ->
  (playtime_min < 0)%Z ->
  (sleep_min < 0)%Z ->
  (inject_Z playtime_min / inject_Z sleep_min <= 5)%Q ->
  calm (w_env w) ->
  w_sigint w = None ->
  (Batch.realtime a = true -> h_realtime_fails (w_host w) = false) ->
  h_rglob (w_host w) (Batch.input_midi_root a) "*.[Mm][Ii][Dd]" <> [] ->
  (run a w).1 = Err ValueError /\
  sessions (w_trace (run a w).2) = sessions (w_trace w) /\
  w_disk (run a w).2 = w_disk w.
Proof.
  intros Hmap Hcp Hp Hs Hratio Hc Hsig Hrt Hfound.
  assert (exists w', run a w = (Err ValueError, w') /\
            sessions (w_trace w') = sessions (w_trace w) /\
            w_disk w' = w_disk w) as (w' & -> & Hw'); [|done].
  unfold run. rewrite Hmap, Hcp.
  assert ((sleep_min =? 0)%Z = false) as -> by lia.
  unfold ratio_exceeds. apply Qle_bool_iff in Hratio as ->. simpl.
  unfold bind at 1. simpl.
  destruct (sorted_by _ _) as [|p0 paths] eqn:Hsorted.
  { by apply sorted_by_nil in Hsorted. }
  assert (inject_Z (playtime_min * 60) < 0)%Q as Hth
    by (unfold Qlt, inject_Z; simpl; lia).
  assert (inject_Z (sleep_min * 60) < 0)%Q as Hdur
    by (unfold Qlt, inject_Z; simpl; lia).
  pose proof (calm_next_lag _ Hc) as L0.
  pose proof (calm_tail _ Hc) as Hc1.
  pose proof (calm_next_lag _ Hc1) as L1.
  assert (Qle_bool 0 (inject_Z (sleep_min * 60)) = false) as Hneg.
  { destruct (Qle_bool 0 _) eqn:E; [|done]. apply Qle_bool_iff in E. lra. }
  assert (forall now, (0 <= now)%Q ->
            Qle_bool now (inject_Z (playtime_min * 60)) = false) as Hdue.
  { intros now Hnow. destruct (Qle_bool now _) eqn:E; [|done].
    apply Qle_bool_iff in E. lra. }
  destruct (Batch.realtime a) eqn:Ert.
  - pose proof (Hrt eq_refl) as Hok.
    repeat (simpl; unfold enable_realtime, cooldown_rest, clock, sleep, bind,
              checkpoint, elapse, log, modify, get, ret, raise;
            rewrite ?Hsig, ?Hok, ?Hneg).
    rewrite Hdue by lra. simpl. eexists. split; [reflexivity|].
    unfold sessions. simpl. rewrite omap_app. simpl. by rewrite app_nil_r.
  - repeat (simpl; unfold cooldown_rest, clock, sleep, bind,
              checkpoint, elapse, log, modify, get, ret, raise;
            rewrite ?Hsig, ?Hneg).
    rewrite Hdue by lra. simpl. eexists. split; [reflexivity|]. done.
Qed.

Lemma negative_cooldown_crashes_witness :
  let a := demo_batch 2 None (Some (-15, -3)%Z) in
  let w := world0 (demo_host false [["in"; "a.mid"]]) demo_disk demo_env None in
  (run a w).1 = Err ValueError /\
  sessions (w_trace (run a w).2) = sessions (w_trace w) /\
  w_disk (run a w).2 = w_disk w.
Proof.
  apply (negative_cooldown_crashes (demo_batch 2 None (Some (-15, -3)%Z))
           (-15) (-3)
           (world0 (demo_host false [["in"; "a.mid"]]) demo_disk demo_env None));
    [reflexivity | reflexivity | lia | lia | | | reflexivity | done | done].
  - vm_compute. discriminate.
  - unfold calm. simpl. repeat constructor; simpl; lra.
Defined.

(** * Post-processing *)

Lemma transcode_all_calls a af ss paths w :
  exists new,
    w_trace (transcode_all a af ss paths w).2 = w_trace w ++ new /\
    Forall (transcode_with a ss af) new.
Proof.
  revert w. induction paths as [|p paths IH]; intros w; simpl.
  { exists []. by rewrite app_nil_r. }
  destruct (relative_to p (Postprocess.audio_root a)) as [rel|] eqn:Hrel.
  2: { exists []. by rewrite app_nil_r. }
  apply relative_to_Some in Hrel as ->.
  unfold bind at 1. simpl.
  destruct (negb _ && _); [apply IH|].
  unfold ffmpeg_run, bind, log, modify. simpl.
  set (w1 := set_disk _ _).
  destruct (IH w1) as (new & E & F).
  exists (EvFfmpeg (Postprocess.audio_root a ++ rel)
                   (Postprocess.output_root a ++ rel) ss af
                   (Postprocess.sample_rate a) :: new).
  split.
  - rewrite E. unfold w1. simpl. by rewrite <- app_assoc.
  - constructor; [|done]. simpl. split_and!; try done. by exists rel.
Qed.

(** X18.  Whatever a post-processing run does to the outside world is a
    sequence of ffmpeg calls, each from a file under the audio root to the
    same relative path under the output root, all with the one offset, the
    one stereo panning and the one sample rate of the run; in mono mode
    there is no call at all. *)
Theorem postprocess_calls_mirror_the_tree (a : Postprocess.Args) (w : World) :
  exists new,
    w_trace (process_wav_files a w).2 = w_trace w ++ new /\
    Forall (stereo_transcode a) new /\
    (Postprocess.stereo a = false -> new = []).
Proof.
  assert (exists new, w_trace w = w_trace w ++ new /\
            Forall (stereo_transcode a) new /\
            (Postprocess.stereo a = false -> new = [])) as Hnone.
  { exists []. by rewrite app_nil_r. }
  unfold process_wav_files. unfold bind at 1. simpl.
  destruct (Postprocess.stereo a) eqn:Hst.
  - destruct (stereo_weights_missing (Postprocess.stereo_c0_weights a));
      [exact Hnone|].
    destruct (stereo_weights_missing (Postprocess.stereo_c1_weights a));
      [exact Hnone|].
    unfold bind, ret. simpl.
    destruct (transcode_all_calls a
                (PanStereo (enumerate (Postprocess.stereo_c0_weights a))
                           (enumerate (Postprocess.stereo_c1_weights a)))
                (inject_Z (Postprocess.offset_ms a) * (1 # 1000))%Q
                (h_rglob (w_host w) (Postprocess.audio_root a) "*.wav") w)
      as (new & E & F).
    exists new. by split_and!.
  - unfold channel_weights_missing, list_lt_int, bind, ret, raise.
    destruct (Postprocess.channel_weights a); exact Hnone.
Qed.

Lemma transcode_all_keeps a af ss paths w q f :
  Postprocess.overwrite a = false ->
  w_disk w !! q = Some f ->
  w_disk (transcode_all a af ss paths w).2 !! q = Some f.
Proof.
  intros Hov. revert w. induction paths as [|p paths IH]; intros w Hq; simpl.
  { done. }
  destruct (relative_to p (Postprocess.audio_root a)) as [rel|]; [|done].
  unfold bind at 1. simpl. rewrite Hov. simpl.
  destruct (bool_decide (is_Some (w_disk w !! (Postprocess.output_root a ++ rel))))
    eqn:Hex; [by apply IH|].
  apply bool_decide_eq_false in Hex.
  unfold ffmpeg_run, bind, log, modify. simpl. apply IH. simpl.
  rewrite lookup_insert_ne; [done|]. intros <-. apply Hex. by rewrite Hq.
Qed.

(** X19.  Without [overwrite], post-processing leaves every file that
    exists when it starts as it is, however the run ends: what it writes,
    it writes to paths that held nothing. *)
Theorem postprocess_keeps_existing_files (a : Postprocess.Args) (w : World)
    (q : Path) (f : File) :
  Postprocess.overwrite a = false ->
  w_disk w !! q = Some f ->
  w_disk (process_wav_files a w).2 !! q = Some f.
Proof.
  intros Hov Hq. unfold process_wav_files. unfold bind at 1. simpl.
  destruct (Postprocess.stereo a).
  - destruct (stereo_weights_missing (Postprocess.stereo_c0_weights a)); [done|].
    destruct (stereo_weights_missing (Postprocess.stereo_c1_weights a)); [done|].
    unfold bind, ret. simpl. by apply transcode_all_keeps.
  - unfold channel_weights_missing, list_lt_int, bind, ret, raise.
    by destruct (Postprocess.channel_weights a).
Qed.

Lemma postprocess_keeps_existing_files_witness :
  w_disk (process_wav_files (stereo_args false) raw_world).2 !! ["mix"; "a.wav"]
  = Some (FWav 44100 2 [[1; 2]%Z]).
Proof.
  apply (postprocess_keeps_existing_files (stereo_args false) raw_world
           ["mix"; "a.wav"] (FWav 44100 2 [[1; 2]%Z])); reflexivity.
Defined.




(** * Resuming *)

(** X21.  When the audio input cannot be opened (the port and the sound
    file could, no Ctrl+C pending), the session raises the device error
    after the sound file was created: an empty WAV file stays at the
    destination, and no reset is sent. *)
Theorem stream_failure_leaves_empty_file (c : Capture) (mid : list Msg)
    (w : World) :
  w_sigint w = None ->
  channel_map_mismatch (num_channels c) (channel_map c) = false ->
  w_disk w !! input_midi_filepath c = Some (FMidi mid) ->
  h_port_fails (w_host w) = false ->
  h_soundfile_fails (w_host w) = false ->
  h_stream_fails (w_host w) = true ->
  h_close_fails (w_host w) = false ->
  (capture_performance c w).1 = Err (DeviceError InputStreamDev) /\
  w_disk (capture_performance c w).2 !! output_audio_filepath c
  = Some (FWav (sample_rate c) (num_channels c) []) /\
  resets (w_trace (capture_performance c w).2) = resets (w_trace w).
Proof.
  intros Hs Hmis Hd Hp Hf Hi Hc.
  unfold capture_performance. rewrite Hmis.
  unfold recording, teardown, try_except, with_exit, MidiFile, open_output,
    SoundFile, InputStream, sf_close, port_close, stream_close, bind,
    checkpoint, elapse, log, modify, get, ret, raise.
  repeat (simpl; rewrite ?Hs, ?Hd, ?Hp, ?Hf, ?Hc, ?Hi).
  split_and!; [done| |].
  - by rewrite lookup_insert_eq.
  - unfold resets. rewrite ?omap_app. simpl. by rewrite ?app_nil_r.
Qed.

Lemma stream_failure_leaves_empty_file_witness :
  let w := world0 (deaf_host []) demo_disk demo_env None in
  (capture_performance demo_capture w).1 = Err (DeviceError InputStreamDev) /\
  w_disk (capture_performance demo_capture w).2 !! ["out"; "a.wav"]
  = Some (FWav 44100 2 []) /\
  resets (w_trace (capture_performance demo_capture w).2) = [].
Proof.
  apply (stream_failure_leaves_empty_file demo_capture
           [note_on; set_tempo; note_off]
           (world0 (deaf_host []) demo_disk demo_env None)); reflexivity.
Defined.

Lemma bind_get {A B} (f : World -> A) (k : A -> M B) (w : World) :
  bind (get f) k w = k (f w) w.
Proof. reflexivity. Qed.

Lemma idle_bind {A B} (m : M A) (f : A -> M B) (d : gmap Path File) :
  preserves (unchanged w_disk) m ->
  preserves (emits idle_event) m ->
  (forall x w, w_disk w = d ->
     w_disk (f x w).2 = d /\ emits idle_event w (f x w).2) ->
  forall w, w_disk w = d ->
    w_disk (bind m f w).2 = d /\ emits idle_event w (bind m f w).2.
Proof.
  intros Hd He Hf w Hw. specialize (Hd w). specialize (He w).
  unfold unchanged in Hd. unfold bind.
  destruct (m w) as [[x|e] w1]; simpl in *; [|split; congruence].
  destruct (Hf x w1) as [Hd' He']; [congruence|]. split; [done|].
  by etransitivity.
Qed.

Lemma run_loop_idle a th dur paths timer d :
  Forall (done_on a d) paths ->
  forall w, w_disk w = d ->
    w_disk (run_loop a th dur timer paths w).2 = d /\
    emits idle_event w (run_loop a th dur timer paths w).2.
Proof.
  intros Hall. revert timer.
  induction Hall as [|p paths (dst & Hout & Hex) _ IH]; intros timer; simpl.
  { intros w Hw. split; [done | reflexivity]. }
  apply idle_bind; [preserve_with disk_atom | emits_tac |]. intros now.
  apply idle_bind.
  { destruct (negb _); unfold cooldown_rest; preserve_with disk_atom. }
  { destruct (negb _); unfold cooldown_rest; emits_tac. }
  intros timer' w Hw.
  rewrite Hout, !bind_get, Hw, bool_decide_eq_true_2 by done. by apply IH.
Qed.

(** X22.  A batch whose every source already has its destination on disk
    opens no device and writes no file, however it ends: the disk is as it
    was, and all that happened is the thread policy request, sleeps and
    rests. *)
Theorem finished_batch_does_nothing (a : Batch.Args) (w : World) :
  Forall (done_on a (w_disk w))
         (h_rglob (w_host w) (Batch.input_midi_root a) "*.[Mm][Ii][Dd]") ->
  w_disk (run a w).2 = w_disk w /\
  exists new,
    w_trace (run a w).2 = w_trace w ++ new /\
    Forall (fun e => idle_event e = true) new.
Proof.
  intros Hall.
  assert (w_disk (run a w).2 = w_disk w /\ emits idle_event w (run a w).2)
    as [Hd He]; [|by split].
  unfold run.
  destruct (channel_map_mismatch _ _); [split; [done | reflexivity]|].
  destruct (Batch.cooldown_parameters a) as [[playtime_min sleep_min]|];
    [|split; [done | reflexivity]].
  destruct (sleep_min =? 0)%Z; [split; [done | reflexivity]|].
  destruct (ratio_exceeds _ _); [split; [done | reflexivity]|].
  rewrite !bind_get.
  apply idle_bind; [| |intros [] | done].
  { destruct (Batch.realtime a); preserve_with disk_atom. }
  { destruct (Batch.realtime a); emits_tac. }
  apply idle_bind; [preserve_with disk_atom | emits_tac |]. intros now.
  apply run_loop_idle. by rewrite sorted_by_perm.
Qed.

Lemma finished_batch_does_nothing_witness :
  let a := demo_batch 2 None (Some (15, 3)%Z) in
  let w := world0 (demo_host false [["in"; "a.mid"]])
                  (<[ ["out"; "a.wav"] := FOther ]> demo_disk) demo_env None in
  w_disk (run a w).2 = w_disk w /\
  exists new,
    w_trace (run a w).2 = w_trace w ++ new /\
    Forall (fun e => idle_event e = true) new.
Proof.
  apply (finished_batch_does_nothing (demo_batch 2 None (Some (15, 3)%Z))
           (world0 (demo_host false [["in"; "a.mid"]])
                   (<[ ["out"; "a.wav"] := FOther ]> demo_disk) demo_env None)).
  repeat constructor. exists ["out"; "a.wav"]. split; [reflexivity|].
  vm_compute. by eexists.
Defined.
